(** * ts-remote-data-react: hooks and components over [RemoteData]

    A shallow embedding of the hooks of the package ([useTimeout],
    [usePromise], [useRemoteLatest], [useActivityIndicator]) and of its two
    components ([ActivityIndicator], [RemoteSuspense]), with the properties
    of the reconciliation and activity-aggregation core proved about them.

    React itself is not part of the package.  Its hook runtime is modelled by
    explicit state passing: every hook is a function from the hook's slots as
    the previous commit left them ([None] before the first render) and the
    arguments of this render to the slots after the commit.  A render, its
    commit and the effects of the commit form one step; where an effect sets
    a state, the render that follows is part of the step, and what the first
    of the two renders returned is told apart ([Promise.render]).  Time is
    an integer number of milliseconds; a timer set by [setTimeout] fires
    when the clock reaches its deadline. *)

From stdpp Require Import base numbers list gmap strings.

#[local] Set Warnings "-clear-no-such-hyp".

Local Open Scope Z_scope.

(** ** The [RemoteData] type of the [ts-remote-data] library

    [RemoteData<T>] is the untagged union
    [T | typeof NOT_ASKED | typeof LOADING | Failure]: two sentinels, the
    failure objects made by [failWith], and every other value, which is ready
    as it is.  [T] stands for those other values and [E] for what a failure
    carries. *)
Module RemoteData.

Inductive RemoteData (T E : Type) : Type :=
  | NOT_ASKED
  | LOADING
  | Failure (error : E)
  | Val (value : T).

Arguments NOT_ASKED {T E}.
Arguments LOADING {T E}.
Arguments Failure {T E} error.
Arguments Val {T E} value.

#[export] Instance RemoteData_eq_dec {T E} `{EqDecision T, EqDecision E} :
  EqDecision (RemoteData T E).
Proof. solve_decision. Defined.

(** The equality of [T] stands for the identity of the ready values.  Two
    more things can be told of a ready value, and the hooks depend on them.

    [strictEq a b] is [a === b].  It is not the identity: the number [NaN]
    is not [===] to itself.

    [asFunction v] is [Some f] when [typeof v === 'function'], and [f state]
    is then what the call [v(state)] returns; the call is taken to return. *)
Class StrictEq (T : Type) := strictEq : T → T → bool.

Class Callable (T E : Type) :=
  asFunction : T → option (RemoteData T E → RemoteData T E).

Section Predicates.
Context {T E : Type}.

Definition failWith (error : E) : RemoteData T E := Failure error.

Definition isFailure (rd : RemoteData T E) : bool :=
  match rd with Failure _ => true | _ => false end.

Definition isReady (rd : RemoteData T E) : bool :=
  match rd with
  | NOT_ASKED | LOADING => false
  | Failure _ => false
  | Val _ => true
  end.

(** The two settled states of the specification: ready or failed. *)
Definition isSettled (rd : RemoteData T E) : bool := isReady rd || isFailure rd.

(** [a === b] on the union: the sentinels are symbols and the failures are
    objects, each identical to itself only. *)
Definition strictEquals `{!StrictEq T, EqDecision E} (a b : RemoteData T E) : bool :=
  match a, b with
  | NOT_ASKED, NOT_ASKED => true
  | LOADING, LOADING => true
  | Failure e1, Failure e2 => bool_decide (e1 = e2)
  | Val v1, Val v2 => strictEq v1 v2
  | _, _ => false
  end.

End Predicates.

End RemoteData.

Import RemoteData.

(** ** Hook slots

    [useRef] and [useState] take their initial value on the first render
    only; an effect runs on the first commit and afterwards when a
    dependency differs from the one of the previous commit. *)
Module React.

Definition useRef {A} (slot : option A) (initial : A) : A := default initial slot.

Definition useState {A} (slot : option A) (initial : A) : A := default initial slot.

Definition depsChanged {D} `{EqDecision D} (prev : option D) (next : D) : bool :=
  match prev with
  | None => true
  | Some d => bool_decide (d ≠ next)
  end.

End React.

Import React.

(** ** [useRemoteLatest], first version (src/useRemoteLatest.ts)

    The hook keeps one ref, [shown].  The function below is the body of the
    hook: it takes the ref as the previous render left it and returns the
    ref after this render, which is also the value the hook returns. *)
Module RemoteLatest.

Section Hook.
Context {T E : Type}.

Definition useRemoteLatest (slot : option (RemoteData T E)) (data : RemoteData T E)
  : RemoteData T E :=
  let shown := useRef slot data in
  if isReady data || isFailure data || negb (isReady shown)
  then data
  else shown.

(** The hook rendered with each element of [inputs] in turn: the outputs
    of the renders and the ref after the last one. *)
Fixpoint renders (slot : option (RemoteData T E)) (inputs : list (RemoteData T E))
  : list (RemoteData T E) * option (RemoteData T E) :=
  match inputs with
  | [] => ([], slot)
  | data :: rest =>
      let shown := useRemoteLatest slot data in
      let '(outs, final) := renders (Some shown) rest in
      (shown :: outs, final)
  end.
End Hook.

End RemoteLatest.

(** ** [useTimeout] (the module [./useTimeout]) *)
Module Timeout.

(** The second argument of the hook: [number | null | false]. *)
Inductive Delay : Type :=
  | DelayMs (ms : Z)
  | DelayNull
  | DelayFalse.

#[export] Instance Delay_eq_dec : EqDecision Delay.
Proof. solve_decision. Defined.

(** [b && ms] for a boolean [b] and a number [ms], as the callers of the
    hook write it: [false] when [b] is false and the number otherwise. *)
Definition andNumber (b : bool) (ms : Z) : Delay :=
  if b then DelayMs ms else DelayFalse.

(** The longest delay a timer takes: the delay is kept as a signed 32-bit
    integer. *)
Definition TIMEOUT_MAX : Z := 2147483647.

(** The delay a timer runs with when [setTimeout] is given [ms]: a delay
    above [TIMEOUT_MAX] is set to 1, a negative one counts as zero. *)
Definition timerDelay (ms : Z) : Z :=
  if bool_decide (TIMEOUT_MAX < ms) then 1 else Z.max 0 ms.

(** [setTimeout(fire, ms)] called at time [now]: the deadline of the timer. *)
Definition setTimeout (now ms : Z) : Z := now + timerDelay ms.

Section Hook.
(** Callbacks are compared by identity only. *)
Context {Cb : Type} `{EqDecision Cb}.

(** The slots of one instance of the hook.  [timer] is the deadline of the
    timeout set by the last run of the delay effect, while it has neither
    fired nor been cleared; an instance never has two live timeouts, since
    the effect clears the one of its previous run before it sets another. *)
Record Hook : Type := {
  currentCallback : Cb;
  callbackDep : Cb;
  delayDep : Delay;
  timer : option Z;
}.

Definition useTimeout (now : Z) (slot : option Hook) (callback : Cb) (delay : Delay)
  : Hook :=
  let current := useRef (currentCallback <$> slot) callback in
  (* useEffect(() => { currentCallback.current = callback; }, [callback]) *)
  let current :=
    if depsChanged (callbackDep <$> slot) callback then callback else current in
  (* useEffect(..., [delay]) *)
  let timer :=
    if depsChanged (delayDep <$> slot) delay then
      (* the cleanup of the previous run, clearTimeout(id), then the body *)
      match delay with
      | DelayMs ms => Some (setTimeout now ms)
      | DelayNull | DelayFalse => None
      end
    else slot ≫= timer in
  {| currentCallback := current;
     callbackDep := callback;
     delayDep := delay;
     timer := timer |}.

(** The timer of the instance when the clock reaches [t]: the deadline at
    which it fires, if it is live and due. *)
Definition due (h : Hook) (t : Z) : option Z :=
  match timer h with
  | Some deadline => if bool_decide (deadline ≤ t) then Some deadline else None
  | None => None
  end.

(** The instance once its timer has fired; [fire] then calls
    [currentCallback.current]. *)
Definition fired (h : Hook) : Hook :=
  {| currentCallback := currentCallback h;
     callbackDep := callbackDep h;
     delayDep := delayDep h;
     timer := None |}.

(** *** A component that only calls [useTimeout]

    The callbacks are opaque: calling one is recorded with the time of
    the call. *)
Record World : Type := {
  now : Z;
  hook : option Hook;
  calls : list (Z * Cb);
}.

Inductive Event : Type :=
  | Render (callback : Cb) (delay : Delay)
  | Wait (dt : N).

Definition start : World := {| now := 0; hook := None; calls := [] |}.

Definition step (w : World) (ev : Event) : World :=
  match ev with
  | Render callback delay =>
      {| now := now w;
         hook := Some (useTimeout (now w) (hook w) callback delay);
         calls := calls w |}
  | Wait dt =>
      let t := now w + Z.of_N dt in
      match hook w with
      | Some h =>
          match due h t with
          | Some deadline =>
              {| now := t;
                 hook := Some (fired h);
                 calls := calls w ++ [(deadline, currentCallback h)] |}
          | None => {| now := t; hook := hook w; calls := calls w |}
          end
      | None => {| now := t; hook := hook w; calls := calls w |}
      end
  end.

Definition run (w : World) (evs : list Event) : World := foldl step w evs.

(** After every commit the ref holds the callback of that render. *)
Definition committed (h : Hook) : Prop := currentCallback h = callbackDep h.

End Hook.

Arguments Hook Cb : clear implicits.
Arguments World Cb : clear implicits.
Arguments Event Cb : clear implicits.

(** *** Debouncing with the hook

    [useActivityIndicator] and [RemoteSuspense] debounce a condition in the
    same way: a state flag, set by the callback of a timeout whose delay is
    [condition && threshold], and cleared during the render that finds the
    condition false.  [held] is the time for which the condition has held
    without interruption, [None] when it does not hold.  [debounced] is
    what then links the flag, the timer and [held]. *)
Definition debounced (threshold now : Z) (flag : bool) (tm : Hook nat)
    (held : option Z) : Prop :=
  delayDep tm = andNumber (bool_decide (is_Some held)) threshold
  ∧ match held with
    | None => flag = false ∧ timer tm = None
    | Some t =>
        0 ≤ t
        ∧ match timer tm with
          | Some deadline =>
              flag = false ∧ deadline = now - t + timerDelay threshold
              ∧ t ≤ timerDelay threshold
          | None => flag = true ∧ timerDelay threshold ≤ t
          end
    end.

(** The slots before the first render. *)
Definition debouncedSlot (threshold now : Z) (flag : option bool)
    (tm : option (Hook nat)) (held : option Z) : Prop :=
  match flag, tm with
  | Some f, Some tm => debounced threshold now f tm held
  | None, None => held = None
  | _, _ => False
  end.

Definition holdsAfter (condition : bool) (held : option Z) : option Z :=
  if condition then Some (default 0 held) else None.

End Timeout.

(** ** The [ActivityIndicator] component (src/ActivityIndicator.tsx)

    The component owns the set [registered] (a ref) and the state
    [isIndicating]; [uniqueId] is a counter of the module, shared by every
    instance of the component.  The counter is a JavaScript number, exact up
    to 2^53; it is modelled by an unbounded natural number. *)
Module ActivityIndicator.

Record Registry : Type := {
  registered : gset N;
  isIndicating : bool;
}.

(** A component as it mounts: [useRef(new Set())] and [useState(false)]. *)
Definition mount : Registry := {| registered := ∅; isIndicating := false |}.

(** [setIndicateStatus(b)] *)
Definition setIndicateStatus (b : bool) (r : Registry) : Registry :=
  {| registered := registered r; isIndicating := b |}.

(** [registrar.register()]: the counter after the call, the registry after
    the call, and the [id] the returned function closes over. *)
Definition register (uniqueId : N) (r : Registry) : N * Registry * N :=
  let id := uniqueId in
  let uniqueId := (uniqueId + 1)%N in
  let wasEmpty := bool_decide (size (registered r) = 0%nat) in
  let r := {| registered := {[id]} ∪ registered r; isIndicating := isIndicating r |} in
  let r := if wasEmpty then setIndicateStatus true r else r in
  (uniqueId, r, id).

(** The function returned by [register], for the [id] it closed over. *)
Definition deregister (id : N) (r : Registry) : Registry :=
  let r := {| registered := registered r ∖ {[id]}; isIndicating := isIndicating r |} in
  if bool_decide (size (registered r) = 0%nat) then setIndicateStatus false r else r.

(** *** Serial histories of one registry

    [Register] is a call of [register] on this registry, [Deregister id] a
    call of the function that the registration with token [id] returned, and
    [RegisterElsewhere] a call of [register] on another instance of the
    component, which moves the shared counter only.  [issued] lists the
    tokens of the registrations made on this registry, in their order.
    [setIndicateStatus] is taken to have committed before the next call. *)
Inductive Op : Type :=
  | Register
  | Deregister (id : N)
  | RegisterElsewhere.

Record World : Type := {
  uniqueId : N;
  registry : Registry;
  issued : list N;
}.

Definition start : World := {| uniqueId := 0; registry := mount; issued := [] |}.

Definition step (w : World) (op : Op) : World :=
  match op with
  | Register =>
      let '(uid, r, id) := register (uniqueId w) (registry w) in
      {| uniqueId := uid; registry := r; issued := issued w ++ [id] |}
  | Deregister id =>
      {| uniqueId := uniqueId w; registry := deregister id (registry w);
         issued := issued w |}
  | RegisterElsewhere =>
      {| uniqueId := (uniqueId w + 1)%N; registry := registry w; issued := issued w |}
  end.

Definition run (w : World) (ops : list Op) : World := foldl step w ops.

(** The aggregate agrees with the set. *)
Definition consistent (r : Registry) : Prop :=
  isIndicating r = true ↔ registered r ≠ ∅.

(** What holds in every world of a history: the aggregate agrees with
    the set, and the tokens are the values the counter has passed. *)
Record sound (w : World) : Prop := {
  sound_consistent : consistent (registry w);
  sound_fresh : ∀ id, id ∈ issued w → (id < uniqueId w)%N;
  sound_registered : ∀ id, id ∈ registered (registry w) → id ∈ issued w;
  sound_NoDup : NoDup (issued w);
}.

End ActivityIndicator.

(** ** [useActivityIndicator] (src/ActivityIndicator.tsx)

    The hook is modelled below an [ActivityIndicator], whose registrar it
    finds in the context.  The registrar is memoized once, so of the
    dependencies [context, show] of the registration effect only [show] can
    change.  The callback given to [useTimeout] is a closure made by each
    render; its identity is the number of the commit that made it, and every
    one of them calls [setShow(true)]. *)
Module ActivityHook.

Import ActivityIndicator.

Definition defaultTimeoutBeforeShow : Z := 250.

(** The slots of one instance: the state [show], the slots of [useTimeout],
    the dependency of the registration effect as last committed, and the
    token of the function that the effect returned as its cleanup ([None]
    when it returned [undefined]). *)
Record Hook : Type := {
  show : bool;
  timeout : Timeout.Hook nat;
  showDep : bool;
  cleanup : option N;
  commits : nat;
}.

Definition useActivityIndicator (now : Z) (uniqueId : N) (context : Registry)
    (slot : option Hook) (hasActivity : bool) (timeoutBeforeShow : option Z)
  : N * Registry * Hook :=
  let timeoutBeforeShow := default defaultTimeoutBeforeShow timeoutBeforeShow in
  let show := useState (show <$> slot) false in
  (* if (!hasActivity && show) setShow(false): an update of the state while
     rendering.  React drops the pass that made it and evaluates the body
     again with the new state; the pass that commits sees [show = false]. *)
  let show := if negb hasActivity && show then false else show in
  let n := default 0%nat (commits <$> slot) in
  let timeout :=
    Timeout.useTimeout now (timeout <$> slot) n
      (Timeout.andNumber hasActivity timeoutBeforeShow) in
  (* useEffect(() => (show ? context.register() : undefined), [context, show]) *)
  let '(uniqueId, context, cleanup) :=
    if depsChanged (showDep <$> slot) show then
      let context :=
        match slot ≫= cleanup with
        | Some id => deregister id context
        | None => context
        end in
      if show then
        let '(uniqueId, context, id) := register uniqueId context in
        (uniqueId, context, Some id)
      else (uniqueId, context, None)
    else (uniqueId, context, slot ≫= cleanup) in
  (uniqueId, context,
   {| show := show; timeout := timeout; showDep := show; cleanup := cleanup;
      commits := S n |}).

(** The timer of the instance has fired: [fire] calls the current callback,
    which calls [setShow(true)]. *)
Definition fire (h : Hook) : Hook :=
  {| show := true; timeout := Timeout.fired (timeout h); showDep := showDep h;
     cleanup := cleanup h; commits := commits h |}.



End ActivityHook.

(** ** [useRemoteLatest], with the activity report

    The later version of the hook: the same ref and the same update of it,
    followed by the report to the activity indicator.  The hook compares
    the ref and the data with [!==], the negation of [strictEquals]. *)
Module RemoteLatestIndicator.

Import ActivityIndicator ActivityHook.

(** [Partial<RemoteLatestOptions>]: either field may be left out. *)
Record RemoteLatestOptions : Type := {
  hideIndicator : option bool;
  indicatorTimeout : option Z;
}.

Definition noOptions : RemoteLatestOptions :=
  {| hideIndicator := None; indicatorTimeout := None |}.

Section Hook.
Context {T E : Type} `{EqDecision T, EqDecision E, !StrictEq T}.

Record Hook : Type := {
  shown : RemoteData T E;
  activity : ActivityHook.Hook;
}.

Definition useRemoteLatest (now : Z) (uniqueId : N) (context : Registry)
    (slot : option Hook) (data : RemoteData T E) (options : RemoteLatestOptions)
  : N * Registry * Hook * RemoteData T E :=
  let current := useRef (shown <$> slot) data in
  let current :=
    if isReady data || isFailure data || negb (isReady current)
    then data
    else current in
  (* shown.current !== data *)
  let isShowingOld := negb (strictEquals current data) in
  let '(uniqueId, context, act) :=
    useActivityIndicator now uniqueId context (activity <$> slot)
      (isShowingOld && negb (default false (hideIndicator options)))
      (indicatorTimeout options) in
  (uniqueId, context, {| shown := current; activity := act |}, current).

(** *** A component that calls the hook, below an [ActivityIndicator]

    [data] is the argument of the last render and [returned] what the
    hook returned from it.  When the timer of the hook fires and changes
    the state, React renders the component again with the same
    arguments. *)
Record World : Type := {
  now : Z;
  uniqueId : N;
  registry : Registry;
  hook : option Hook;
  data : option (RemoteData T E);
  returned : option (RemoteData T E);
}.

Inductive Event : Type :=
  | Render (data : RemoteData T E)
  | Wait (dt : N).

Definition start : World :=
  {| now := 0; uniqueId := 0; registry := ActivityIndicator.mount;
     hook := None; data := None; returned := None |}.

Definition render (options : RemoteLatestOptions) (t : Z) (w : World)
    (slot : option Hook) (d : RemoteData T E) : World :=
  let '(uid, reg, h, out) :=
    useRemoteLatest (now w) (uniqueId w) (registry w) slot d options in
  {| now := t; uniqueId := uid; registry := reg;
     hook := Some h; data := Some d; returned := Some out |}.

Definition elapse (t : Z) (w : World) : World :=
  {| now := t; uniqueId := uniqueId w; registry := registry w;
     hook := hook w; data := data w; returned := returned w |}.

Definition step (options : RemoteLatestOptions) (w : World) (ev : Event) : World :=
  match ev with
  | Render d => render options (now w) w (hook w) d
  | Wait dt =>
      let t := now w + Z.of_N dt in
      match hook w, data w with
      | Some h, Some d =>
          match Timeout.due (timeout (activity h)) t with
          | Some deadline =>
              let h' := {| shown := shown h; activity := fire (activity h) |} in
              if show (activity h)
              then elapse t {| now := now w; uniqueId := uniqueId w;
                               registry := registry w; hook := Some h';
                               data := data w; returned := returned w |}
              else render options t (elapse deadline w) (Some h') d
          | None => elapse t w
          end
      | _, _ => elapse t w
      end
  end.

Definition run (options : RemoteLatestOptions) (w : World) (evs : list Event)
  : World :=
  foldl (step options) w evs.

(** Whether the instance holds a registration with the indicator. *)
Definition reported (w : World) : bool :=
  match hook w ≫= (cleanup ∘ activity) with
  | Some id => bool_decide (id ∈ registered (registry w))
  | None => false
  end.


(** The staleness condition, in the words of the specification: the
    incoming result is not settled and the result shown so far is ready. *)
Definition stalenessCondition (shownBefore : option (RemoteData T E))
    (incoming : RemoteData T E) : bool :=
  match shownBefore with
  | Some s => isReady s && negb (isSettled incoming)
  | None => false
  end.

(** For how long the staleness condition has held without interruption,
    along a history: [None] when it does not hold. *)
Definition heldAfter (w : World) (held : option Z) (ev : Event) : option Z :=
  match ev with
  | Render d =>
      if stalenessCondition (shown <$> hook w) d
      then Some (default 0 held)
      else None
  | Wait dt => (λ h, h + Z.of_N dt) <$> held
  end.

Definition stepHeld (options : RemoteLatestOptions) (wh : World * option Z)
    (ev : Event) : World * option Z :=
  (step options wh.1 ev, heldAfter wh.1 wh.2 ev).

Definition runHeld (options : RemoteLatestOptions) (evs : list Event)
  : World * option Z :=
  foldl (stepHeld options) (start, None) evs.

Definition staleFor (options : RemoteLatestOptions) (evs : list Event) : option Z :=
  (runHeld options evs).2.

(** The threshold in force. *)
Definition threshold (options : RemoteLatestOptions) : Z :=
  default defaultTimeoutBeforeShow (indicatorTimeout options).



(** What holds of the component after every step of a history: the hook
    returned what the ref holds, and a render with the same data would
    leave the ref as it is. *)
Definition retaining (w : World) : Prop :=
  match hook w, data w with
  | Some h, Some d =>
      returned w = Some (shown h)
      ∧ RemoteLatest.useRemoteLatest (Some (shown h)) d = shown h
  | None, None => returned w = None
  | _, _ => False
  end.


(** An event that brings no settled result: a render with [NOT_ASKED]
    or [LOADING], or time passing. *)
Definition unsettling (ev : Event) : Prop :=
  match ev with
  | Render d => d = NOT_ASKED ∨ d = LOADING
  | Wait _ => True
  end.
End Hook.

Arguments Hook T E : clear implicits.
Arguments World T E : clear implicits.
Arguments Event T E : clear implicits.

End RemoteLatestIndicator.

(** ** [usePromise] (the module [./usePromise])

    Promises are known by their identity, a number.  What a promise settles
    with is outside the hook: a promise of the type [Promise<T>] may resolve
    with any value the union [RemoteData<T>] has, a sentinel or a failure
    object included, and may reject with anything.  A ready value may be a
    function ([asFunction]); the setter of the state then takes it for a
    function of the state. *)
Module Promise.

Section Hook.
Context {T E : Type} `{EqDecision T, EqDecision E, !Callable T E}.

Inductive Outcome : Type :=
  | Resolved (value : RemoteData T E)
  | Rejected (error : E).

(** [promise.catch(RemoteData.failWith)]: what the [then] callback receives. *)
Definition caught (o : Outcome) : RemoteData T E :=
  match o with
  | Resolved value => value
  | Rejected error => failWith error
  end.

(** The slots of one instance: the state [data], the dependency [promise]
    as last committed, and the cleanup the effect returned: the index of
    the [isStillRelevant] variable it sets to [false] ([None] when the
    effect returned nothing). *)
Record Hook : Type := {
  data : RemoteData T E;
  promiseDep : option nat;
  cleanup : option nat;
}.

(** One render of the hook and the effects of its commit.  [flags] holds
    the [isStillRelevant] variable of every run of the effect so far;
    [reactions] holds the [then] callbacks that wait for their promise,
    each with the promise and the index of the variable it closes over.
    The last component is what the render returns: the state before the
    effect runs. *)
Definition usePromise (flags : list bool) (reactions : list (nat * nat))
    (slot : option Hook) (promise : option nat)
  : list bool * list (nat * nat) * Hook * RemoteData T E :=
  let current :=
    useState (data <$> slot)
      (match promise with Some _ => LOADING | None => NOT_ASKED end) in
  if depsChanged (promiseDep <$> slot) promise then
    (* cleanup of the previous run: isStillRelevant = false *)
    let flags :=
      match slot ≫= cleanup with
      | Some k => <[k := false]> flags
      | None => flags
      end in
    (* let isStillRelevant = true *)
    let k := length flags in
    let flags := flags ++ [true] in
    match promise with
    | None =>
        (flags, reactions,
         {| data := NOT_ASKED; promiseDep := promise; cleanup := None |}, current)
    | Some p =>
        (flags, reactions ++ [(p, k)],
         {| data := LOADING; promiseDep := promise; cleanup := Some k |}, current)
    end
  else
    (flags, reactions,
     {| data := current; promiseDep := promise; cleanup := slot ≫= cleanup |},
     current).

(** [setData(action)]: the state after the call.  The setter of a state
    takes the next state or a function of the current one; an [action] that
    is a function is called with the current state, and what it returns is
    the next state. *)
Definition setData (action state : RemoteData T E) : RemoteData T E :=
  match action with
  | Val v =>
      match asFunction v with
      | Some f => f state
      | None => action
      end
  | _ => action
  end.

(** The [then] callback of one reaction, once its promise has settled:
    [if (isStillRelevant) setData(result)]. *)
Definition react (flags : list bool) (settled : gmap nat Outcome)
    (state : RemoteData T E) (reaction : nat * nat) : RemoteData T E :=
  match settled !! reaction.1 with
  | Some o =>
      if default false (flags !! reaction.2) then setData (caught o) state else state
  | None => state
  end.

(** *** A component that calls the hook

    [Settle] settles a promise that has not settled yet; [Flush] runs the
    callbacks of the settled promises, in the order they were attached.
    [promise] is the argument of the last render and [returned] what the
    hook returned last; when the state changes, React renders the
    component again with the same argument. *)
Record World : Type := {
  hook : option Hook;
  promise : option nat;
  returned : option (RemoteData T E);
  flags : list bool;
  reactions : list (nat * nat);
  settled : gmap nat Outcome;
}.

Inductive Event : Type :=
  | Render (promise : option nat)
  | Settle (p : nat) (o : Outcome)
  | Flush.

Definition start : World :=
  {| hook := None; promise := None; returned := None;
     flags := []; reactions := []; settled := ∅ |}.

(** The state [data] was set: a render with the arguments of the last one
    follows when the state has changed. *)
Definition rerender (before : option (RemoteData T E)) (w : World) : World :=
  match hook w with
  | Some h =>
      if bool_decide (before = Some (data h)) then w
      else
        let '(fl, rs, h', out) :=
          usePromise (flags w) (reactions w) (Some h) (promise w) in
        {| hook := Some h'; promise := promise w; returned := Some out;
           flags := fl; reactions := rs; settled := settled w |}
  | None => w
  end.

(** The render that is given [p], with its commit and the effect of the
    commit: [returned] is what this render returned, the state as it was
    before the effect ran. *)
Definition render (w : World) (p : option nat) : World :=
  let '(fl, rs, h, out) := usePromise (flags w) (reactions w) (hook w) p in
  {| hook := Some h; promise := p; returned := Some out;
     flags := fl; reactions := rs; settled := settled w |}.

Definition step (w : World) (ev : Event) : World :=
  match ev with
  | Render p =>
      let w' := render w p in
      rerender (returned w') w'
  | Settle p o =>
      {| hook := hook w; promise := promise w; returned := returned w;
         flags := flags w; reactions := reactions w;
         settled := match settled w !! p with
                    | Some _ => settled w
                    | None => <[p := o]> (settled w)
                    end |}
  | Flush =>
      let waiting :=
        filter (λ r, settled w !! r.1 = None) (reactions w) in
      match hook w with
      | Some h =>
          let state := foldl (react (flags w) (settled w)) (data h) (reactions w) in
          rerender (Some (data h))
            {| hook := Some {| data := state; promiseDep := promiseDep h;
                               cleanup := cleanup h |};
               promise := promise w; returned := returned w;
               flags := flags w; reactions := waiting; settled := settled w |}
      | None =>
          {| hook := None; promise := promise w; returned := returned w;
             flags := flags w; reactions := waiting; settled := settled w |}
      end
  end.

Definition run (w : World) (evs : list Event) : World :=
  foldl step w evs.

(** The promise the hook watches: the one of the last commit. *)
Definition watched (w : World) : option nat := hook w ≫= promiseDep.
(** A reaction whose [isStillRelevant] variable is still true. *)
Definition relevant (fl : list bool) (r : nat * nat) : bool :=
  default false (fl !! r.2).

(** What links the slots of the hook, the [isStillRelevant] variables and
    the waiting reactions in every world of a history. *)
Record linked (w : World) : Prop := {
  linked_bound : ∀ r, r ∈ reactions w → (r.2 < length (flags w))%nat;
  linked_relevant :
    ∀ r, r ∈ reactions w → relevant (flags w) r = true →
         ∃ h, hook w = Some h ∧ cleanup h = Some r.2 ∧ promiseDep h = Some r.1;
  linked_promise :
    ∀ h, hook w = Some h → promise w = promiseDep h ∧ returned w = Some (data h);
  linked_cleanup :
    ∀ h k, hook w = Some h → cleanup h = Some k →
           (k < length (flags w))%nat ∧ flags w !! k = Some true;
  linked_waiting :
    ∀ h p, hook w = Some h → promiseDep h = Some p →
           ∃ k, cleanup h = Some k
                ∧ (settled w !! p = None → (p, k) ∈ reactions w);
  linked_NoDup : NoDup (reactions w);
  linked_unmounted : hook w = None → returned w = None;
  linked_pending :
    ∀ h, hook w = Some h →
         match promiseDep h with
         | Some p => settled w !! p = None → data h = LOADING
         | None => data h = NOT_ASKED
         end;
}.

(** The variables after the cleanup of the last run of the effect. *)
Definition cleaned (w : World) : list bool :=
  match hook w ≫= cleanup with
  | Some k => <[k := false]> (flags w)
  | None => flags w
  end.

(** The state the effect sets for a promise. *)
Definition pending (p : option nat) : RemoteData T E :=
  match p with Some _ => LOADING | None => NOT_ASKED end.

(** Two worlds that differ only in what concerns [p1]: whether it has
    settled, and its reactions, none of which is relevant. *)
Record agree (p1 : nat) (wL wR : World) : Prop := {
  agree_hook : hook wL = hook wR;
  agree_promise : promise wL = promise wR;
  agree_returned : returned wL = returned wR;
  agree_flags : flags wL = flags wR;
  agree_settled : ∀ p, p ≠ p1 → settled wL !! p = settled wR !! p;
  agree_reactions :
    filter (λ r, r.1 ≠ p1) (reactions wL) = filter (λ r, r.1 ≠ p1) (reactions wR);
  agree_dead_l : ∀ r, r ∈ reactions wL → r.1 = p1 → relevant (flags wL) r = false;
  agree_dead_r : ∀ r, r ∈ reactions wR → r.1 = p1 → relevant (flags wR) r = false;
  agree_linked_l : linked wL;
  agree_linked_r : linked wR;
}.
End Hook.

Arguments Outcome T E : clear implicits.
Arguments Hook T E : clear implicits.
Arguments World T E : clear implicits.
Arguments Event T E : clear implicits.

End Promise.

(** ** The [RemoteSuspense] component

    The version whose [failureFallback] is a node or a function. *)
Module Suspense.

(** What a component may render.  [X] stands for the elements. *)
#[local] Unset Elimination Schemes.
Inductive ReactNode (X : Type) : Type :=
  | RNull
  | RBool (b : bool)
  | RElement (x : X)
  | RFragment (children : list (ReactNode X)).

#[local] Set Elimination Schemes.

Arguments RNull {X}.
Arguments RBool {X} b.
Arguments RElement {X} x.
Arguments RFragment {X} children.

(** [ReactNode | ((error: unknown) => ReactNode)] *)
Inductive FailureFallback (E X : Type) : Type :=
  | FallbackNode (node : ReactNode X)
  | FallbackFunction (f : E → ReactNode X).

Arguments FallbackNode {E X} node.
Arguments FallbackFunction {E X} f.

Section Component.
Context {T E X : Type}.

Definition typeofFunction (fallback : FailureFallback E X) : bool :=
  match fallback with
  | FallbackFunction _ => true
  | FallbackNode _ => false
  end.

(** [isElement] of [react-is]: whether the value is a React element. *)
Definition isElement (fallback : FailureFallback E X) : bool :=
  match fallback with
  | FallbackNode (RElement _) => true
  | _ => false
  end.

(** [failureFallback(error)], for a fallback that is a function. *)
Definition call (fallback : FailureFallback E X) (error : E) : ReactNode X :=
  match fallback with
  | FallbackFunction f => f error
  | FallbackNode node => node
  end.

(** The fallback as a child of the fragment.  A function is not a node:
    React renders nothing for it. *)
Definition asNode (fallback : FailureFallback E X) : ReactNode X :=
  match fallback with
  | FallbackNode node => node
  | FallbackFunction _ => RNull
  end.

(** The props other than [data]; a prop left out is [None]. *)
Record Config : Type := {
  loadingTimeout : option Z;
  loadingFallback : option (ReactNode X);
  failureFallback : option (FailureFallback E X);
  children : T → ReactNode X;
}.

Definition defaultLoadingTimeout : Z := 150.

(** The slots: the state [showLoading] and the slots of [useTimeout].  As
    in [useActivityIndicator], the callback of the timeout is a closure of
    each render, which calls [setShowLoading(true)]. *)
Record Hook : Type := {
  showLoading : bool;
  timeout : Timeout.Hook nat;
  commits : nat;
}.

(** [data === RemoteData.LOADING] *)
Definition isLOADING (data : RemoteData T E) : bool :=
  match data with LOADING => true | _ => false end.

(** What the component returns for [data], given the state [showLoading]. *)
Definition view (cfg : Config) (showLoading : bool) (data : RemoteData T E)
  : ReactNode X :=
  let loadingFallback := default RNull (loadingFallback cfg) in
  let failureFallback :=
    default (FallbackFunction (λ _, RNull)) (failureFallback cfg) in
  match data with
  | NOT_ASKED => RFragment []
  | LOADING => RFragment [if showLoading then loadingFallback else RBool false]
  | Failure error =>
      RFragment
        [if typeofFunction failureFallback && negb (isElement failureFallback)
         then call failureFallback error
         else asNode failureFallback]
  | Val value => RFragment [children cfg value]
  end.

Definition RemoteSuspense (now : Z) (slot : option Hook) (cfg : Config)
    (data : RemoteData T E) : Hook * ReactNode X :=
  let loadingTimeout := default defaultLoadingTimeout (loadingTimeout cfg) in
  let showLoading := useState (showLoading <$> slot) false in
  let isLoading := isLOADING data in
  (* if (!isLoading && showLoading) setShowLoading(false): an update of
     the state while rendering; the pass that commits is the one React
     evaluates after it, with [showLoading = false]. *)
  let showLoading := if negb isLoading && showLoading then false else showLoading in
  let n := default 0%nat (commits <$> slot) in
  let timeout :=
    Timeout.useTimeout now (timeout <$> slot) n
      (Timeout.andNumber isLoading loadingTimeout) in
  ({| showLoading := showLoading; timeout := timeout; commits := S n |},
   view cfg showLoading data).

(** The timer has fired: the callback calls [setShowLoading(true)]. *)
Definition fire (h : Hook) : Hook :=
  {| showLoading := true; timeout := Timeout.fired (timeout h);
     commits := commits h |}.

(** *** A mounted component

    [data] is the prop of the last render and [rendered] what that render
    returned.  When the timer fires and changes the state, React renders
    the component again with the same props. *)
Record World : Type := {
  now : Z;
  hook : option Hook;
  data : option (RemoteData T E);
  rendered : option (ReactNode X);
}.

Inductive Event : Type :=
  | Render (data : RemoteData T E)
  | Wait (dt : N).

Definition start : World :=
  {| now := 0; hook := None; data := None; rendered := None |}.

Definition render (cfg : Config) (at_ t : Z) (slot : option Hook)
    (d : RemoteData T E) : World :=
  let '(h, out) := RemoteSuspense at_ slot cfg d in
  {| now := t; hook := Some h; data := Some d; rendered := Some out |}.

Definition elapse (t : Z) (w : World) : World :=
  {| now := t; hook := hook w; data := data w; rendered := rendered w |}.

Definition step (cfg : Config) (w : World) (ev : Event) : World :=
  match ev with
  | Render d => render cfg (now w) (now w) (hook w) d
  | Wait dt =>
      let t := now w + Z.of_N dt in
      match hook w, data w with
      | Some h, Some d =>
          match Timeout.due (timeout h) t with
          | Some deadline =>
              if showLoading h
              then {| now := t; hook := Some (fire h); data := data w;
                      rendered := rendered w |}
              else render cfg deadline t (Some (fire h)) d
          | None => elapse t w
          end
      | _, _ => elapse t w
      end
  end.

Definition run (cfg : Config) (w : World) (evs : list Event) : World :=
  foldl (step cfg) w evs.

(** For how long the data has been [LOADING] without interruption, along
    a history of the component: [None] when it is not. *)
Definition pendingAfter (held : option Z) (ev : Event) : option Z :=
  match ev with
  | Render d => if isLOADING d then Some (default 0 held) else None
  | Wait dt => (λ h, h + Z.of_N dt) <$> held
  end.

Definition pendingFor (evs : list Event) : option Z := foldl pendingAfter None evs.
(** The loading threshold in force. *)
Definition loadingThreshold (cfg : Config) : Z := default defaultLoadingTimeout (loadingTimeout cfg).

(** What holds of a mounted component after every step of a history,
    [held] being the time for which the data has been [LOADING]. *)
Definition gated (cfg : Config) (w : World) (held : option Z) : Prop :=
  match hook w, data w with
  | Some h, Some d =>
      rendered w = Some (view cfg (showLoading h) d)
      ∧ isLOADING d = bool_decide (is_Some held)
      ∧ Timeout.debounced (loadingThreshold cfg) (now w) (showLoading h) (timeout h) held
  | None, None => held = None
  | _, _ => False
  end.
End Component.

Arguments Config T E X : clear implicits.
Arguments World T E X : clear implicits.
Arguments Event T E : clear implicits.

End Suspense.

(** ** What [ActivityIndicator] renders, and [useActivityIndicatorStatus]
    (src/ActivityIndicator.tsx) *)
Module ActivityIndicatorView.

Import ActivityIndicator Suspense.

(** The prop [indicator], when it is given: a node, or a function of the
    status. *)
Inductive Indicator (X : Type) : Type :=
  | IndicatorNode (node : ReactNode X)
  | SelfHidingIndicator (f : bool → ReactNode X).

Arguments IndicatorNode {X} node.
Arguments SelfHidingIndicator {X} f.

(** A child of the providers: a node, or [undefined]. *)
Inductive Child (X : Type) : Type :=
  | ChildUndefined
  | ChildNode (node : ReactNode X).

Arguments ChildUndefined {X}.
Arguments ChildNode {X} node.

Section Component.
Context {X : Type}.

Definition typeofFunction (indicator : option (Indicator X)) : bool :=
  match indicator with
  | Some (SelfHidingIndicator _) => true
  | _ => false
  end.

Definition isElement (indicator : option (Indicator X)) : bool :=
  match indicator with
  | Some (IndicatorNode (RElement _)) => true
  | _ => false
  end.

(** [indicator(isIndicating)], for an indicator that is a function. *)
Definition call (indicator : option (Indicator X)) (isIndicating : bool) : Child X :=
  match indicator with
  | Some (SelfHidingIndicator f) => ChildNode (f isIndicating)
  (* not reached: only a function takes this branch *)
  | Some (IndicatorNode node) => ChildNode node
  | None => ChildUndefined
  end.

(** [isIndicating && indicator] *)
Definition andIndicator (isIndicating : bool) (indicator : option (Indicator X))
  : Child X :=
  if isIndicating then
    match indicator with
    | Some (IndicatorNode node) => ChildNode node
    (* not reached: a function takes the other branch *)
    | Some (SelfHidingIndicator _) => ChildNode RNull
    | None => ChildUndefined
    end
  else ChildNode (RBool false).

(** The children of the two providers that the component returns, for the
    state [isIndicating] of the registry: the children of the component and
    then the indicator. *)
Definition ActivityIndicator (r : Registry) (indicator : option (Indicator X))
    (children : ReactNode X) : list (Child X) :=
  [ChildNode children;
   if typeofFunction indicator && negb (isElement indicator)
   then call indicator (isIndicating r)
   else andIndicator (isIndicating r) indicator].

(** [useActivityIndicatorStatus], below the component with the registry
    [scope], or below none: the default value of the context is [false]. *)
Definition useActivityIndicatorStatus (scope : option Registry) : bool :=
  match scope with
  | Some r => isIndicating r
  | None => false
  end.
End Component.

End ActivityIndicatorView.

(** ** [useAsyncOperation] (src/useRemoteLatest.ts, second part)

    [Op] stands for the identities of the functions given as [op] and [D]
    for the dependency lists, compared as React compares them.  [invoke]
    gives the promise that an operation returns for the signal of a
    controller; controllers are known by their number.  [never] throws: a
    render that calls it gives [Thrown]. *)
Module AsyncOperation.

Inductive Result (A : Type) : Type :=
  | Returned (a : A)
  | Thrown.

Arguments Returned {A} a.
Arguments Thrown {A}.

Section Hook.
Context {T E : Type} `{EqDecision T, EqDecision E, !Callable T E}.
Context {Op D : Type} `{EqDecision Op, EqDecision D}.

Variable invoke : Op → nat → nat.

(** [op || never] *)
Inductive Runner : Type :=
  | RunOp (op : Op)
  | RunNever.

#[export] Instance Runner_eq_dec : EqDecision Runner.
Proof. solve_decision. Defined.

Definition orNever (op : option Op) : Runner :=
  match op with Some o => RunOp o | None => RunNever end.

(** The slots of the hook before it calls [usePromise]: the memoized
    callback, controller and promise, each with its dependencies as last
    committed, and the dependencies of the effect; the cleanup of the
    effect aborts the controller of the render that ran it, the first
    component of [abortDeps]. *)
Record Hook : Type := {
  runner : Runner;
  runnerDeps : D;
  controller : nat;
  controllerDeps : Runner;
  promise : option nat;
  promiseDeps : Runner * nat;
  abortDeps : nat * option nat;
}.

(** One render of the hook up to the call of [usePromise], and the effect
    of its commit.  [nextController] numbers the controllers made so far,
    [aborted] holds the controllers whose signal was raised, and [calls]
    lists the invocations of operations, each with its controller. *)
Definition useAsyncOperation (nextController : nat) (aborted : gset nat)
    (calls : list (Op * nat)) (slot : option Hook) (op : option Op) (deps : D)
  : Result (nat * gset nat * list (Op * nat) * Hook) :=
  (* const runner = useCallback(op || never, deps) *)
  let runner' :=
    if depsChanged (runnerDeps <$> slot) deps then orNever op
    else default RunNever (runner <$> slot) in
  (* const controller = useMemo(() => new AbortController(), [runner]) *)
  let '(controller', nextController) :=
    if depsChanged (controllerDeps <$> slot) runner'
    then (nextController, S nextController)
    else (default 0%nat (controller <$> slot), nextController) in
  (* const promise = useMemo(
       () => (op ? runner(controller.signal) : undefined), [runner, controller]) *)
  let made :=
    if depsChanged (promiseDeps <$> slot) (runner', controller') then
      match op with
      | Some _ =>
          match runner' with
          | RunOp o => Returned (Some (invoke o controller'), calls ++ [(o, controller')])
          | RunNever => Thrown
          end
      | None => Returned (None, calls)
      end
    else Returned (slot ≫= promise, calls) in
  match made with
  | Thrown => Thrown
  | Returned (promise', calls) =>
      (* useEffect(() => () => controller.abort(), [controller, promise]) *)
      let aborted :=
        if depsChanged (abortDeps <$> slot) (controller', promise') then
          match abortDeps <$> slot with
          | Some (previous, _) => {[previous]} ∪ aborted
          | None => aborted
          end
        else aborted in
      Returned
        (nextController, aborted, calls,
         {| runner := runner'; runnerDeps := deps;
            controller := controller'; controllerDeps := runner';
            promise := promise'; promiseDeps := (runner', controller');
            abortDeps := (controller', promise') |})
  end.

(** *** A component that calls the hook

    [inner] holds what [usePromise] keeps, with the promises and their
    reactions.  The render that follows a change of the state of
    [usePromise] gives the hook the arguments of the last render; the
    slots above do not change in it, and it is the one [Promise.step]
    makes.  A render in which [never] is called has no next world. *)
Record World : Type := {
  hook : option Hook;
  nextController : nat;
  aborted : gset nat;
  calls : list (Op * nat);
  inner : Promise.World T E;
}.

Inductive Event : Type :=
  | Render (op : option Op) (deps : D)
  | Settle (p : nat) (o : Promise.Outcome T E)
  | Flush.

Definition start : World :=
  {| hook := None; nextController := 0; aborted := ∅; calls := [];
     inner := Promise.start |}.

Definition step (w : World) (ev : Event) : option World :=
  match ev with
  | Render op deps =>
      match useAsyncOperation (nextController w) (aborted w) (calls w) (hook w) op deps with
      | Returned (next, ab, cs, h) =>
          Some {| hook := Some h; nextController := next; aborted := ab; calls := cs;
                  inner := Promise.step (inner w) (Promise.Render (promise h)) |}
      | Thrown => None
      end
  | Settle p o =>
      Some {| hook := hook w; nextController := nextController w;
              aborted := aborted w; calls := calls w;
              inner := Promise.step (inner w) (Promise.Settle p o) |}
  | Flush =>
      Some {| hook := hook w; nextController := nextController w;
              aborted := aborted w; calls := calls w;
              inner := Promise.step (inner w) Promise.Flush |}
  end.

Fixpoint run (w : World) (evs : list Event) : option World :=
  match evs with
  | [] => Some w
  | ev :: rest =>
      match step w ev with
      | Some w' => run w' rest
      | None => None
      end
  end.

(** What links the slots in every world of a history. *)
Record tied (w : World) : Prop := {
  tied_inner : ∃ pevs, inner w = Promise.run Promise.start pevs;
  tied_unmounted :
    hook w = None → nextController w = 0%nat ∧ aborted w = ∅ ∧ calls w = []
                    ∧ Promise.hook (inner w) = None;
  tied_deps :
    ∀ h, hook w = Some h →
         controllerDeps h = runner h
         ∧ promiseDeps h = (runner h, controller h)
         ∧ abortDeps h = (controller h, promise h)
         ∧ Promise.promiseDep <$> Promise.hook (inner w) = Some (promise h)
         ∧ (runner h = RunNever → promise h = None);
  tied_current :
    ∀ h, hook w = Some h →
         (controller h < nextController w)%nat ∧ controller h ∉ aborted w;
  tied_aborted :
    ∀ c, (c < nextController w)%nat →
         (∀ h, hook w = Some h → c ≠ controller h) → c ∈ aborted w;
  tied_made : ∀ c, c ∈ aborted w → (c < nextController w)%nat;
  tied_calls :
    NoDup (calls w).*2
    ∧ ∀ o c, (o, c) ∈ calls w → (c < nextController w)%nat;
}.
End Hook.

Arguments Runner Op : clear implicits.
Arguments Hook Op D : clear implicits.
Arguments World T E Op D : clear implicits.
Arguments Event T E Op D : clear implicits.

End AsyncOperation.

(** ** [usePromiseState] (src/usePromiseState.ts) *)
Module PromiseState.

(** [initialValue]: a promise or [undefined], or a function that returns
    one of them. *)
Inductive Initial : Type :=
  | InitialValue (p : option nat)
  | InitialFunction (f : unit → option nat).

(** What the setter is given: the next promise, or a function of the
    current one. *)
Inductive Action : Type :=
  | SetValue (p : option nat)
  | SetFunction (f : option nat → option nat).

Definition initialState (initialValue : Initial) : option nat :=
  match initialValue with
  | InitialValue p => p
  | InitialFunction f => f tt
  end.

Definition nextState (a : Action) (current : option nat) : option nat :=
  match a with
  | SetValue p => p
  | SetFunction f => f current
  end.

Section Hook.
Context {T E : Type} `{EqDecision T, EqDecision E, !Callable T E}.

(** [useState(initialValue)]: the promise the hook holds after a render. *)
Definition usePromiseState (slot : option (option nat)) (initialValue : Initial)
  : option nat :=
  useState slot (initialState initialValue).

(** *** A component that calls the hook

    [state] is the promise held ([None] before the first render) and
    [inner] what [usePromise] keeps.  [SetPromise] is a call of the setter
    the hook returned: it does nothing before the first render, and nothing
    when the state it is given is the current one; otherwise the component
    is rendered with the new state. *)
Record World : Type := {
  state : option (option nat);
  inner : Promise.World T E;
}.

Inductive Event : Type :=
  | Render (initialValue : Initial)
  | SetPromise (a : Action)
  | Settle (p : nat) (o : Promise.Outcome T E)
  | Flush.

Definition start : World := {| state := None; inner := Promise.start |}.

Definition step (w : World) (ev : Event) : World :=
  match ev with
  | Render initialValue =>
      let promise := usePromiseState (state w) initialValue in
      {| state := Some promise;
         inner := Promise.step (inner w) (Promise.Render promise) |}
  | SetPromise a =>
      match state w with
      | Some current =>
          let next := nextState a current in
          if bool_decide (next = current) then w
          else {| state := Some next;
                  inner := Promise.step (inner w) (Promise.Render next) |}
      | None => w
      end
  | Settle p o =>
      {| state := state w; inner := Promise.step (inner w) (Promise.Settle p o) |}
  | Flush =>
      {| state := state w; inner := Promise.step (inner w) Promise.Flush |}
  end.

Definition run (w : World) (evs : list Event) : World := foldl step w evs.
End Hook.

Arguments World T E : clear implicits.
Arguments Event T E : clear implicits.

End PromiseState.

(** ** The values of the examples

    Numbers other than [NaN], and strings: [===] is the identity, and none
    of them is a function. *)
#[global] Instance nat_StrictEq : StrictEq nat := λ a b, bool_decide (a = b).

#[global] Instance string_StrictEq : StrictEq string := λ a b, bool_decide (a = b).

#[global] Instance nat_Callable : Callable nat nat := λ _, None.

#[global] Instance string_Callable : Callable string string := λ _, None.

(** Ready values some of which are functions: a number, or the function
    [() => n], which returns the number [n] whatever it is called with. *)
Inductive Item : Type :=
  | Plain (n : nat)
  | Thunk (n : nat).

#[global] Instance Item_eq_dec : EqDecision Item.
Proof. solve_decision. Defined.

#[global] Instance Item_Callable : Callable Item nat :=
  λ v, match v with
       | Thunk n => Some (λ _, Val (Plain n))
       | Plain _ => None
       end.

(** Numbers with [NaN]: every number but [NaN] is [===] to itself. *)
Inductive Number : Type :=
  | Finite (n : Z)
  | NaN.

#[global] Instance Number_eq_dec : EqDecision Number.
Proof. solve_decision. Defined.

#[global] Instance Number_StrictEq : StrictEq Number :=
  λ a b, match a, b with
         | Finite n, Finite m => bool_decide (n = m)
         | _, _ => false
         end.

(** ** The components of the scenarios

    A panel with a spinner and a loading timeout of 150 ms, and a component
    that calls [useRemoteLatest] with no options. *)
Definition panel : Suspense.Config string string string :=
  {| Suspense.loadingTimeout := Some 150;
     Suspense.loadingFallback := Some (Suspense.RElement "spinner");
     Suspense.failureFallback := None;
     Suspense.children := Suspense.RElement |}.

Definition chart (evs : list (RemoteLatestIndicator.Event string string))
  : RemoteLatestIndicator.World string string :=
  RemoteLatestIndicator.run RemoteLatestIndicator.noOptions
    RemoteLatestIndicator.start evs.

(** * Properties *)

(** ** The stale-data reconciler *)
Section ReconcilerFacts.
Context {T E : Type} `{EqDecision T, EqDecision E, !StrictEq T}.

Implicit Types (shown data : RemoteData T E).

Lemma useRemoteLatest_settled slot data :
  isSettled data = true → RemoteLatest.useRemoteLatest slot data = data.
Proof.
  unfold isSettled, RemoteLatest.useRemoteLatest.
  destruct (isReady data), (isFailure data); simpl; congruence.
Qed.

Lemma useRemoteLatest_nothing_kept slot data :
  (∀ shown, slot = Some shown → isReady shown = false) →
  RemoteLatest.useRemoteLatest slot data = data.
Proof.
  intros Hslot. unfold RemoteLatest.useRemoteLatest.
  destruct slot as [shown|]; simpl.
  - rewrite (Hslot shown eq_refl). simpl. by rewrite orb_true_r.
  - destruct (isReady data) eqn:Hd; simpl; [done|]. by rewrite orb_true_r.
Qed.

Lemma useRemoteLatest_stale shown data :
  isReady shown = true → isSettled data = false →
  RemoteLatest.useRemoteLatest (Some shown) data = shown.
Proof.
  unfold isSettled, RemoteLatest.useRemoteLatest. simpl.
  intros -> Hd. apply orb_false_iff in Hd as [-> ->]. done.
Qed.

Lemma useRemoteLatest_idempotent slot data :
  let out := RemoteLatest.useRemoteLatest slot data in
  RemoteLatest.useRemoteLatest (Some out) data = out.
Proof.
  unfold RemoteLatest.useRemoteLatest.
  destruct slot as [[]|], data; reflexivity.
Qed.

Lemma unsettled_inv data :
  data = NOT_ASKED ∨ data = LOADING ↔ isSettled data = false.
Proof. destruct data; unfold isSettled; simpl; naive_solver. Qed.

Lemma renders_stale shown (inputs : list (RemoteData T E)) :
  isReady shown = true →
  Forall (λ d, d = NOT_ASKED ∨ d = LOADING) inputs →
  RemoteLatest.renders (Some shown) inputs
  = (replicate (length inputs) shown, Some shown).
Proof.
  intros Hready Hall. induction Hall as [|d rest Hd Hrest IH]; [done|].
  simpl. apply unsettled_inv in Hd.
  rewrite (useRemoteLatest_stale shown d Hready Hd), IH. done.
Qed.

(** The later version of the hook keeps and returns what the first one
    does. *)
Lemma useRemoteLatest_versions_agree now uid ctx slot data options :
  let r := RemoteLatestIndicator.useRemoteLatest now uid ctx slot data options in
  r.2 = RemoteLatest.useRemoteLatest (RemoteLatestIndicator.shown <$> slot) data
  ∧ RemoteLatestIndicator.shown r.1.2 = r.2.
Proof.
  unfold RemoteLatestIndicator.useRemoteLatest, RemoteLatest.useRemoteLatest.
  destruct (ActivityHook.useActivityIndicator _ _ _ _ _ _) as [[? ?] ?].
  simpl. done.
Qed.



End ReconcilerFacts.

(** ** The activity registry *)
Section RegistryFacts.
Import ActivityIndicator.

Implicit Types (r : Registry) (w : World) (id : N).

Lemma size_zero (X : gset N) :
  bool_decide (size X = 0%nat) = bool_decide (X = ∅).
Proof. apply bool_decide_ext. rewrite size_empty_iff. by unfold_leibniz. Qed.

Lemma register_spec uid r :
  register uid r
  = ((uid + 1)%N, {| registered := {[uid]} ∪ registered r;
                     isIndicating := bool_decide (registered r = ∅) || isIndicating r |},
     uid).
Proof.
  unfold register. rewrite size_zero.
  by destruct (bool_decide (registered r = ∅)).
Qed.

Lemma deregister_spec id r :
  deregister id r
  = {| registered := registered r ∖ {[id]};
       isIndicating :=
         bool_decide (registered r ∖ {[id]} ≠ ∅) && isIndicating r |}.
Proof.
  unfold deregister. simpl. rewrite size_zero.
  destruct (decide (registered r ∖ {[id]} = ∅)) as [He|Hne].
  - rewrite bool_decide_eq_true_2, (bool_decide_eq_false_2 (_ ≠ _)) by auto.
    done.
  - rewrite bool_decide_eq_false_2, (bool_decide_eq_true_2 (_ ≠ _)) by auto.
    done.
Qed.

Lemma consistent_mount : consistent mount.
Proof. unfold consistent. simpl. split; [done|]. intros []. done. Qed.

Lemma consistent_register uid r : consistent r → consistent (register uid r).1.2.
Proof.
  rewrite register_spec. unfold consistent. simpl. intros Hc. split.
  - intros _. set_solver.
  - intros _. destruct (decide (registered r = ∅)) as [He|Hne].
    + by rewrite bool_decide_eq_true_2.
    + rewrite bool_decide_eq_false_2 by done. simpl. by apply Hc.
Qed.

Lemma consistent_deregister id r : consistent r → consistent (deregister id r).
Proof.
  rewrite deregister_spec. unfold consistent. simpl. intros Hc. split.
  - intros [Hne _]%andb_true_iff. by apply bool_decide_eq_true in Hne.
  - intros Hne. rewrite bool_decide_eq_true_2 by done. simpl.
    apply Hc. set_solver.
Qed.

Lemma deregister_absent id r :
  consistent r → id ∉ registered r → deregister id r = r.
Proof.
  intros Hc Hid. rewrite deregister_spec.
  assert (registered r ∖ {[id]} = registered r) as -> by set_solver.
  destruct r as [X b]. simpl in *. f_equal.
  destruct (decide (X = ∅)) as [He|Hne].
  - rewrite bool_decide_eq_false_2 by auto. simpl.
    destruct b; [|done]. exfalso. by apply Hc.
  - rewrite bool_decide_eq_true_2 by done. done.
Qed.

Lemma sound_start : sound start.
Proof.
  split; simpl.
  - apply consistent_mount.
  - intros id []%elem_of_nil.
  - set_solver.
  - constructor.
Qed.

Lemma sound_step w op : sound w → sound (step w op).
Proof.
  intros [Hc Hf Hr Hn]. destruct op as [|id|]; unfold step.
  - pose proof (consistent_register (uniqueId w) (registry w) Hc) as Hc'.
    rewrite register_spec in Hc' |- *. simpl in *. split; simpl.
    + done.
    + intros id [Hid| ->%list_elem_of_singleton]%elem_of_app; [|lia].
      specialize (Hf id Hid). lia.
    + intros id [->%elem_of_singleton|Hid]%elem_of_union; set_solver.
    + apply NoDup_app. split_and!; [done| |apply NoDup_singleton].
      intros id Hid ->%list_elem_of_singleton. specialize (Hf _ Hid). lia.
  - split; simpl; [by apply consistent_deregister|done| |done].
    rewrite deregister_spec. simpl. set_solver.
  - split; simpl; [done| |done|done].
    intros id Hid. specialize (Hf id Hid). lia.
Qed.

Lemma sound_run w ops : sound w → sound (run w ops).
Proof.
  revert w. induction ops as [|op ops IH]; intros w Hw; [done|].
  simpl. apply IH. by apply sound_step.
Qed.
End RegistryFacts.

Section RegistryHistories.
Import ActivityIndicator.

Implicit Types (w : World) (id : N).

Lemma run_registers w n :
  ∃ tokens,
    issued (run w (replicate n Register)) = issued w ++ tokens
    ∧ length tokens = n
    ∧ registered (registry (run w (replicate n Register)))
      = list_to_set tokens ∪ registered (registry w).
Proof.
  revert w. induction n as [|n IH]; intros w.
  - exists []. simpl. rewrite app_nil_r. split_and!; [done|done|set_solver].
  - destruct (IH (step w Register)) as (tokens & Hi & Hl & Hr).
    exists (uniqueId w :: tokens).
    change (run w (replicate (S n) Register))
      with (run (step w Register) (replicate n Register)).
    rewrite Hi, Hr.
    unfold step. rewrite register_spec. simpl.
    rewrite <- app_assoc. split_and!; [done|by rewrite Hl|set_solver].
Qed.

Lemma run_deregisters w ids :
  registered (registry (run w (Deregister <$> ids)))
  = registered (registry w) ∖ list_to_set ids.
Proof.
  revert w. induction ids as [|id ids IH]; intros w; simpl.
  - set_solver.
  - change (foldl step) with run. rewrite IH. simpl.
    rewrite deregister_spec. simpl. set_solver.
Qed.

Lemma drop_nonempty (order : list N) k :
  NoDup order →
  (list_to_set order ∖ list_to_set (take k order) : gset N) ≠ ∅
  ↔ (k < length order)%nat.
Proof.
  intros Hnd. rewrite <- (take_drop k order) in Hnd at 1.
  apply NoDup_app in Hnd as (_ & Hdisj & _).
  split.
  - intros Hne. destruct (decide (k < length order)%nat); [done|].
    exfalso. apply Hne. rewrite take_ge by lia. set_solver.
  - intros Hk. destruct (drop k order) as [|x rest] eqn:Hd.
    + apply (f_equal length) in Hd. rewrite length_drop in Hd. simpl in Hd. lia.
    + assert (x ∈ order) as Hx.
      { rewrite <- (take_drop k order), Hd. set_solver. }
      assert (x ∉ take k order) as Hnx.
      { intros Hin. apply (Hdisj x Hin). by left. }
      intros He. assert (x ∈ (∅ : gset N)) as []%not_elem_of_empty.
      rewrite <- He. set_solver.
Qed.
End RegistryHistories.

Section RegistryClaims.
Import ActivityIndicator.

Lemma aggregate_of_sound w :
  sound w → isIndicating (registry w) = bool_decide (registered (registry w) ≠ ∅).
Proof.
  intros [Hc _ _ _]. destruct (decide (registered (registry w) ≠ ∅)) as [Hne|He].
  - rewrite bool_decide_eq_true_2 by done. by apply Hc.
  - rewrite bool_decide_eq_false_2 by done.
    destruct (isIndicating (registry w)) eqn:Hi; [|done].
    exfalso. apply He, Hc, Hi.
Qed.

(** C3. Along every serial history of registrations and deregistrations
    on a registry, the aggregate boolean is true exactly when the set of
    tokens is not empty.  After [n] registrations on an empty registry and
    the deregistration of [k ≤ n] of the [n] tokens, in any order, the
    aggregate is true exactly when [k < n]: it still is after [n - 1]
    deregistrations and the [n]-th makes it false. *)
Theorem registry_indicates_iff_registered :
  (∀ ops : list Op,
      let w := run start ops in
      isIndicating (registry w) = true ↔ registered (registry w) ≠ ∅)
  ∧ (∀ (pre : list Op) (n k : nat) (order : list N),
        let w0 := run start pre in
        let w := run w0 (replicate n Register) in
        registered (registry w0) = ∅ →
        order ≡ₚ drop (length (issued w0)) (issued w) →
        (k ≤ n)%nat →
        isIndicating (registry (run w (Deregister <$> take k order)))
        = bool_decide (k < n)%nat).
Proof.
  split.
  - intros ops w. apply (sound_run start ops sound_start).
  - intros pre n k order w0 w Hempty Hperm Hk.
    assert (sound w0) as Hs0 by apply sound_run, sound_start.
    assert (sound w) as Hs by by apply sound_run.
    destruct (run_registers w0 n) as (tokens & Hi & Hl & Hr).
    fold w in Hi, Hr. rewrite Hi, drop_app_length in Hperm.
    assert (NoDup order) as Hnd.
    { rewrite Hperm. pose proof (sound_NoDup w Hs) as Hn.
      rewrite Hi in Hn. by apply NoDup_app in Hn as (_ & _ & Hn). }
    rewrite (aggregate_of_sound (run w (Deregister <$> take k order)))
      by by apply sound_run.
    rewrite run_deregisters, Hr, Hempty.
    assert (list_to_set tokens ∪ ∅ = (list_to_set order : gset N)) as ->.
    { rewrite <- Hperm. set_solver. }
    apply bool_decide_ext. rewrite drop_nonempty by done.
    rewrite Hperm, Hl. done.
Qed.

Lemma registry_indicates_iff_registered_witness :
  isIndicating
    (registry (run (run (run start [Register; Deregister 0%N]) (replicate 3 Register))
                 (Deregister <$> take 2 [1; 2; 3]%N)))
  = true
  ∧ isIndicating
      (registry (run (run (run start [Register; Deregister 0%N]) (replicate 3 Register))
                   (Deregister <$> take 3 [1; 2; 3]%N)))
    = false.
Proof.
  split.
  - apply (proj2 registry_indicates_iff_registered
             [Register; Deregister 0%N] 3%nat 2%nat [1; 2; 3]%N);
      [vm_compute; reflexivity | reflexivity | lia].
  - apply (proj2 registry_indicates_iff_registered
             [Register; Deregister 0%N] 3%nat 3%nat [1; 2; 3]%N);
      [vm_compute; reflexivity | reflexivity | lia].
Defined.

(** C9. The function a registration returns is idempotent: its first call
    removes the token of that registration and no other, and a later
    call, whatever happened on the registry in between, changes neither
    the set nor the aggregate boolean. *)
Theorem deregister_idempotent (pre post : list Op) (id : N) :
  let w1 := run start pre in
  let w2 := step w1 (Deregister id) in
  let w3 := run w2 post in
  id ∈ issued w1 →
  registered (registry w2) = registered (registry w1) ∖ {[id]}
  ∧ registry (step w3 (Deregister id)) = registry w3.
Proof.
  intros w1 w2 w3 Hid.
  assert (sound w1) as Hs1 by apply sound_run, sound_start.
  split; [unfold w2; simpl; by rewrite deregister_spec|].
  assert (sound w3 ∧ (id ∉ registered (registry w3)) ∧ (id < uniqueId w3)%N)
    as (Hs3 & Hout & _).
  { unfold w3. clear w3.
    assert (sound w2 ∧ (id ∉ registered (registry w2)) ∧ (id < uniqueId w2)%N) as Hw2.
    { split_and!.
      - by apply sound_step.
      - unfold w2. simpl. rewrite deregister_spec. simpl. set_solver.
      - apply (sound_fresh w1 Hs1 id Hid). }
    generalize dependent w2. clear. intros w2. revert w2.
    induction post as [|op post IH]; intros w (Hs & Hout & Hlt); [done|].
    simpl. apply IH. split_and!.
    - by apply sound_step.
    - destruct op as [|id'|]; unfold step; [rewrite register_spec| |]; simpl.
      + intros [->%elem_of_singleton|?]%elem_of_union; [lia|done].
      + rewrite deregister_spec. simpl. set_solver.
      + done.
    - destruct op as [|id'|]; unfold step; [rewrite register_spec| |]; simpl; lia. }
  simpl. apply deregister_absent; [apply Hs3|done].
Qed.

Lemma deregister_idempotent_witness :
  registered (registry (step (run start [Register; Register]) (Deregister 0%N)))
  = registered (registry (run start [Register; Register])) ∖ {[0%N]}
  ∧ registry (step (run (step (run start [Register; Register]) (Deregister 0%N))
                        [Register; Deregister 1%N])
                (Deregister 0%N))
    = registry (run (step (run start [Register; Register]) (Deregister 0%N))
                  [Register; Deregister 1%N]).
Proof.
  apply (deregister_idempotent [Register; Register] [Register; Deregister 1%N] 0%N).
  vm_compute. apply list_elem_of_here.
Defined.
End RegistryClaims.

(** ** The debounce timer *)
Section TimeoutFacts.
Import Timeout.
Context {Cb : Type} `{EqDecision Cb}.

Implicit Types (w : World Cb) (h : Hook Cb) (cb : Cb).

Lemma depsChanged_same {D} `{EqDecision D} (d : D) : depsChanged (Some d) d = false.
Proof. simpl. by rewrite bool_decide_eq_false_2 by auto. Qed.

Lemma depsChanged_other {D} `{EqDecision D} (d d' : D) :
  d ≠ d' → depsChanged (Some d) d' = true.
Proof. intros Hne. simpl. by rewrite bool_decide_eq_true_2. Qed.

Lemma timerDelay_nonneg ms : 0 ≤ timerDelay ms.
Proof. unfold timerDelay. case_bool_decide; lia. Qed.

(** A timer never runs for longer than it was asked to. *)
Lemma timerDelay_le ms : timerDelay ms ≤ Z.max 0 ms.
Proof. unfold timerDelay, TIMEOUT_MAX. case_bool_decide; lia. Qed.


Lemma useTimeout_committed now slot cb delay :
  (∀ h, slot = Some h → committed h) →
  currentCallback (useTimeout now slot cb delay) = cb.
Proof.
  intros Hslot. unfold useTimeout. simpl. destruct slot as [h|]; simpl; [|done].
  destruct (decide (callbackDep h = cb)) as [He|Hne].
  - rewrite bool_decide_eq_false_2 by auto. rewrite <- He. by apply Hslot.
  - by rewrite bool_decide_eq_true_2.
Qed.

Lemma run_committed evs h :
  hook (run start evs) = Some h → committed h.
Proof.
  revert h. induction evs as [|ev evs IH] using rev_ind; intros h; [done|].
  unfold run. rewrite foldl_app. simpl. fold (run start evs).
  destruct ev as [cb delay|dt]; simpl.
  - intros [= <-]. unfold committed.
    rewrite useTimeout_committed; [done|]. intros h' Hh'. by apply IH.
  - destruct (hook (run start evs)) as [h'|] eqn:Hh; simpl; [|done].
    pose proof (IH h' eq_refl) as Hc.
    destruct (due h' _); simpl; intros [= <-]; done.
Qed.

Lemma useTimeout_same_delay now h cb :
  timer (useTimeout now (Some h) cb (delayDep h)) = timer h.
Proof. unfold useTimeout. simpl fmap. rewrite depsChanged_same. done. Qed.

Lemma useTimeout_changed_delay now h cb delay :
  delayDep h ≠ delay →
  timer (useTimeout now (Some h) cb delay)
  = match delay with
    | DelayMs ms => Some (setTimeout now ms)
    | _ => None
    end.
Proof.
  intros Hne. unfold useTimeout. simpl fmap.
  rewrite (depsChanged_other _ _ Hne). simpl. by destruct delay.
Qed.
End TimeoutFacts.

Section TimeoutClaims.
Import Timeout.
Context {Cb : Type} `{EqDecision Cb}.

Implicit Types (w : World Cb) (h : Hook Cb) (cb : Cb).

Lemma step_wait_fires w h dt deadline :
  hook w = Some h → timer h = Some deadline → deadline ≤ now w + Z.of_N dt →
  step w (Wait dt)
  = {| now := now w + Z.of_N dt; hook := Some (fired h);
       calls := calls w ++ [(deadline, currentCallback h)] |}.
Proof.
  intros Hh Ht Hd. unfold step, due. rewrite Hh, Ht.
  by rewrite bool_decide_eq_true_2.
Qed.


Lemma run_snoc w evs ev : run w (evs ++ [ev]) = step (run w evs) ev.
Proof. unfold run. by rewrite foldl_app. Qed.


End TimeoutClaims.



Section TimeoutCallbackClaim.
Import Timeout.
Context {Cb : Type} `{EqDecision Cb}.

(** C6. While a timer is pending, a call of the hook with the same delay
    and any callback, in particular another one, leaves the timer as it
    is: it is neither cleared nor set again, and nothing is called.  When
    the timer fires, at its unchanged deadline, the callback of that last
    call is the one called. *)
Theorem useTimeout_adopts_latest_callback
    (pre : list (Event Cb)) (h : Hook Cb) (cb' : Cb) (deadline : Z) (dt : N) :
  let w := run start pre in
  let w' := step w (Render cb' (delayDep h)) in
  hook w = Some h → timer h = Some deadline →
  hook w' ≫= timer = Some deadline
  ∧ calls w' = calls w
  ∧ (deadline ≤ now w' + Z.of_N dt →
     calls (step w' (Wait dt)) = calls w ++ [(deadline, cb')]).
Proof.
  intros w w' Hh Ht.
  assert (hook w' = Some (useTimeout (now w) (Some h) cb' (delayDep h))) as Hh'.
  { unfold w'. simpl. by rewrite Hh. }
  assert (timer (useTimeout (now w) (Some h) cb' (delayDep h)) = Some deadline) as Ht'.
  { by rewrite useTimeout_same_delay. }
  split_and!.
  - rewrite Hh'. simpl. done.
  - done.
  - intros Hd. rewrite (step_wait_fires w' _ dt deadline Hh' Ht' Hd).
    cbn [calls]. change (calls w') with (calls w).
    rewrite useTimeout_committed; [done|].
    intros h0 [= <-]. by apply (run_committed pre).
Qed.
End TimeoutCallbackClaim.

Lemma useTimeout_adopts_latest_callback_witness :
  Timeout.calls
    (Timeout.step
       (Timeout.step
          (Timeout.run Timeout.start
             [Timeout.Render 1%nat (Timeout.DelayMs 1000); Timeout.Wait 400])
          (Timeout.Render 2%nat (Timeout.DelayMs 1000)))
       (Timeout.Wait 600))
  = [(1000, 2%nat)].
Proof.
  apply (useTimeout_adopts_latest_callback
           [Timeout.Render 1%nat (Timeout.DelayMs 1000); Timeout.Wait 400]
           {| Timeout.currentCallback := 1%nat; Timeout.callbackDep := 1%nat;
              Timeout.delayDep := Timeout.DelayMs 1000;
              Timeout.timer := Some 1000 |}
           2%nat 1000 600%N); [reflexivity | reflexivity | simpl; lia].
Defined.

(** ** Debouncing with [useTimeout]

    [useActivityIndicator] and [RemoteSuspense] debounce a condition in the
    same way: a state flag, set by the callback of a timeout whose delay is
    [condition && threshold], and cleared during the render that finds the
    condition false.  [held] is the time for which the condition has held
    without interruption, [None] when it does not hold. *)
Section DebounceFacts.
Import Timeout.

Variable threshold : Z.

Lemma debounced_render now flag tm held (condition : bool) n :
  debouncedSlot threshold now flag tm held →
  let flag0 := useState flag false in
  debounced threshold now
    (if negb condition && flag0 then false else flag0)
    (useTimeout now tm n (andNumber condition threshold))
    (holdsAfter condition held).
Proof.
  unfold debouncedSlot, debounced, holdsAfter, useTimeout, useState.
  destruct flag as [flag|], tm as [tm|]; try done.
  - intros [Hdep Hheld]. simpl fmap. simpl mbind. rewrite Hdep.
    destruct held as [t|], condition; simpl.
    + rewrite bool_decide_eq_false_2 by auto. done.
    + split; [done|]. by destruct flag.
    + destruct Hheld as [-> _]. unfold setTimeout.
      pose proof (timerDelay_nonneg threshold). split_and!; [done|done|done|lia|lia].
    + destruct Hheld as [-> ->]. done.
  - intros ->. simpl. destruct condition; simpl.
    + split; [done|]. split; [done|]. unfold setTimeout.
      pose proof (timerDelay_nonneg threshold). split_and!; [done|lia|lia].
    + done.
Qed.

Lemma debounced_idle now flag tm held (dt : N) :
  debounced threshold now flag tm held →
  due tm (now + Z.of_N dt) = None →
  debounced threshold (now + Z.of_N dt) flag tm ((λ h, h + Z.of_N dt) <$> held).
Proof.
  unfold debounced, due. intros [Hdep Hheld] Hdue.
  destruct held as [t|]; simpl.
  - split; [done|]. destruct Hheld as [Ht Htimer]. split; [lia|].
    destruct (timer tm) as [deadline|]; [|split; [tauto|lia]].
    case_bool_decide; [done|]. split_and!; [tauto|lia|lia].
  - done.
Qed.

(** When the timer fires, the flag is not set yet, the condition holds
    and the threshold has passed. *)
Lemma debounced_fire now flag tm held (dt : N) deadline :
  debounced threshold now flag tm held →
  due tm (now + Z.of_N dt) = Some deadline →
  flag = false
  ∧ now ≤ deadline ≤ now + Z.of_N dt
  ∧ debouncedSlot threshold deadline (Some true) (Some (fired tm))
      (Some (timerDelay threshold))
  ∧ ∃ t, held = Some t ∧ t + (deadline - now) = timerDelay threshold.
Proof.
  unfold debounced, due. intros [Hdep Hheld] Hdue.
  destruct (timer tm) as [dl|] eqn:Htimer; [|done].
  case_bool_decide; [|done]. injection Hdue as ->.
  destruct held as [t|]; [|by destruct Hheld].
  destruct Hheld as (Ht & -> & -> & Hle).
  split_and!; [done|lia|lia| |exists t; split; [done|lia]].
  simpl. unfold debounced. simpl. split; [done|]. split; [lia|]. split; [done|lia].
Qed.

(** Time passing after the flag is set. *)
Lemma debounced_later now now' flag tm t t' :
  debounced threshold now flag tm (Some t) → timer tm = None → t ≤ t' →
  debounced threshold now' flag tm (Some t').
Proof.
  unfold debounced. intros (Hdep & Ht & Htimer) Hnone Hle.
  rewrite Hnone in Htimer |- *. split; [done|]. split; [lia|].
  split; [tauto|lia].
Qed.
End DebounceFacts.

(** ** The presentation gate *)
Section SuspenseFacts.
Import Timeout Suspense.
Context {T E X : Type}.

Variable cfg : Config T E X.

Implicit Types (w : World T E X) (h : Hook) (d : RemoteData T E).

Lemma gated_start : gated cfg start None.
Proof. done. Qed.

Lemma gated_step w held ev :
  gated cfg w held → gated cfg (step cfg w ev) (pendingAfter held ev).
Proof.
  unfold gated. intros Hw. destruct ev as [d|dt].
  - (* a render *)
    assert (debouncedSlot (loadingThreshold cfg) (now w)
              (showLoading <$> hook w) (timeout <$> hook w) held) as Hslot.
    { destruct (hook w), (data w); simpl; try done. tauto. }
    pose proof (debounced_render (loadingThreshold cfg) (now w) _ _ held (isLOADING d)
                  (default 0%nat (commits <$> hook w)) Hslot) as Hd.
    simpl. split_and!; [done| |exact Hd].
    unfold holdsAfter. by destruct (isLOADING d).
  - (* the clock moves *)
    simpl. destruct (hook w) as [h|] eqn:Hh, (data w) as [d|] eqn:Hd; try done.
    + destruct Hw as (Hview & Hload & Hdeb).
      destruct (Timeout.due (timeout h) (now w + Z.of_N dt)) as [deadline|] eqn:Hdue.
      * destruct (debounced_fire _ _ _ _ _ _ _ Hdeb Hdue)
          as (Hflag & Hle & Hslot & t & -> & Ht).
        rewrite Hflag. rewrite bool_decide_eq_true_2 in Hload by done.
        pose proof (debounced_render (loadingThreshold cfg) deadline _ _ _ (isLOADING d)
                      (commits h) Hslot) as Hd'.
        rewrite Hload in Hd'. simpl in Hd'. simpl. rewrite Hload. simpl.
        split_and!; [done|done|].
        eapply debounced_later; [exact Hd'| |lia].
        destruct Hdeb as [Hdep _]. unfold Timeout.useTimeout. simpl.
        rewrite Hdep. simpl. by rewrite bool_decide_eq_false_2 by auto.
      * simpl. rewrite Hh, Hd. split_and!; [done| |by apply debounced_idle].
        rewrite Hload. by destruct held.
    + simpl. rewrite Hh, Hd. by rewrite Hw.
Qed.

Lemma gated_run evs : gated cfg (run cfg start evs) (pendingFor evs).
Proof.
  induction evs as [|ev evs IH] using rev_ind; [apply gated_start|].
  unfold run, pendingFor. rewrite !foldl_app. simpl. by apply gated_step.
Qed.
End SuspenseFacts.

Section SuspenseClaims.
Import Timeout Suspense.
Context {T E X : Type}.

Implicit Types (cfg : Config T E X) (d : RemoteData T E).


(** C8. What the component renders for data that is not [LOADING],
    whatever its slots hold: an empty fragment for [NOT_ASKED]; for a
    failure, the failure fallback, called with the error of the failure
    when it is a function (the default one returns [null]) and rendered as
    it is when it is a node; for a ready value, what [children] returns
    for that value. *)
Theorem RemoteSuspense_dispatch (now : Z) (slot : option Hook) cfg :
  (RemoteSuspense now slot cfg NOT_ASKED).2 = RFragment []
  ∧ (∀ error : E,
        (RemoteSuspense now slot cfg (Failure error)).2
        = RFragment
            [match failureFallback cfg with
             | Some (FallbackFunction f) => f error
             | Some (FallbackNode node) => node
             | None => RNull
             end])
  ∧ (∀ value : T,
        (RemoteSuspense now slot cfg (Val value)).2
        = RFragment [children cfg value]).
Proof.
  split_and!; [done| |done].
  intros error. unfold RemoteSuspense, view. simpl.
  destruct (failureFallback cfg) as [[[]|]|]; done.
Qed.
End SuspenseClaims.


(** ** The activity report of [useActivityIndicator] *)
Section ActivityHookFacts.
Import Timeout ActivityIndicator ActivityHook.

Implicit Types (reg : Registry) (a : Hook).


End ActivityHookFacts.

(** ** The reconciler below an activity indicator *)
Section ReportFacts.
Import Timeout ActivityIndicator ActivityHook RemoteLatestIndicator.
Context {T E : Type} `{EqDecision T, EqDecision E, !StrictEq T}.

Variable options : RemoteLatestOptions.

Implicit Types (w : World T E) (h : Hook T E) (d : RemoteData T E).








Lemma retaining_start : retaining (start : World T E).
Proof. done. Qed.

(** A render of the component leaves it [retaining], whatever the slots
    held before. *)
Lemma render_retaining t w slot d : retaining (render options t w slot d).
Proof.
  unfold retaining, render.
  pose proof (useRemoteLatest_versions_agree (now w) (uniqueId w) (registry w)
                slot d options) as [Hout Hshown].
  destruct (useRemoteLatest _ _ _ _ _ _) as [[[uid reg] h'] out]. simpl in *.
  split; [by rewrite Hshown|].
  rewrite Hshown, Hout. apply useRemoteLatest_idempotent.
Qed.

Lemma render_returned t w slot d :
  returned (render options t w slot d)
  = Some (RemoteLatest.useRemoteLatest (shown <$> slot) d).
Proof.
  unfold render.
  pose proof (useRemoteLatest_versions_agree (now w) (uniqueId w) (registry w)
                slot d options) as [Hout _].
  destruct (useRemoteLatest _ _ _ _ _ _) as [[[uid reg] h'] out]. simpl in *.
  by rewrite Hout.
Qed.

Lemma retaining_step w ev : retaining w → retaining (step options w ev).
Proof.
  intros Hw. destruct ev as [d|dt]; [apply render_retaining|].
  simpl step. unfold retaining in Hw.
  destruct (hook w) as [h|] eqn:Hh, (data w) as [d|] eqn:Hd; try done.
  - destruct (Timeout.due _ _) as [deadline|].
    + destruct (show (activity h)); [|apply render_retaining].
      unfold retaining. simpl. by rewrite ?Hh, ?Hd.
    + unfold retaining. simpl. by rewrite ?Hh, ?Hd.
  - unfold retaining. simpl. by rewrite ?Hh, ?Hd.
Qed.

(** What the hook returns from the renders of a step. *)
Lemma step_returned w ev :
  retaining w →
  returned (step options w ev)
  = match ev with
    | Render d => Some (RemoteLatest.useRemoteLatest (shown <$> hook w) d)
    | Wait _ => returned w
    end.
Proof.
  intros Hw. destruct ev as [d|dt]; [apply render_returned|].
  simpl step. unfold retaining in Hw.
  destruct (hook w) as [h|] eqn:Hh, (data w) as [d|] eqn:Hd; try done.
  destruct Hw as [Hret Hkept].
  destruct (Timeout.due _ _) as [deadline|]; [|done].
  destruct (show (activity h)); [done|].
  rewrite render_returned. simpl. by rewrite Hkept.
Qed.
End ReportFacts.

Section ReportHistories.
Import Timeout ActivityIndicator ActivityHook RemoteLatestIndicator.
Context {T E : Type} `{EqDecision T, EqDecision E, !StrictEq T}.

Variable options : RemoteLatestOptions.

Implicit Types (w : World T E) (h : Hook T E) (d : RemoteData T E).




Lemma retaining_run w (evs : list (Event T E)) :
  retaining w → retaining (run options w evs).
Proof.
  revert w. induction evs as [|ev evs IH]; intros w Hw; [done|].
  simpl. apply IH. by apply retaining_step.
Qed.

End ReportHistories.

Section ReportClaims.
Import Timeout ActivityIndicator ActivityHook RemoteLatestIndicator.
Context {T E : Type} `{EqDecision T, EqDecision E, !StrictEq T}.

Implicit Types (w : World T E) (h : Hook T E) (d : RemoteData T E).



End ReportClaims.


Section ReconcilerClaims.
Import Timeout ActivityIndicator ActivityHook RemoteLatestIndicator.
Context {T E : Type} `{EqDecision T, EqDecision E, !StrictEq T}.

Implicit Types (w : World T E) (h : Hook T E) (d : RemoteData T E).

Lemma run_unsettling options (calm : list (Event T E)) w v :
  retaining w →
  returned w = Some v → isReady v = true →
  Forall unsettling calm →
  returned (run options w calm) = Some v.
Proof.
  intros Hw Hret Hv Hcalm. revert w Hw Hret.
  induction Hcalm as [|ev calm Hev Hcalm IH]; intros w Hw Hret; [done|].
  simpl. eapply IH.
  - by apply retaining_step.
  - rewrite (step_returned options w ev Hw).
    destruct ev as [d|dt]; [|done].
    unfold retaining in Hw.
    destruct (hook w) as [h|], (data w); try done.
    + destruct Hw as (Hshown & _). rewrite Hret in Hshown.
      injection Hshown as ->. simpl. f_equal.
      apply useRemoteLatest_stale; [done|]. by apply unsettled_inv.
    + by rewrite Hret in Hw.
Qed.
End ReconcilerClaims.

Section ReconcilerClaim.
Import RemoteLatestIndicator.
Context {T E : Type} `{EqDecision T, EqDecision E, !StrictEq T}.

(** C1. Once the ref of [useRemoteLatest] holds a ready value [ready]:
    every render with [NOT_ASKED] or [LOADING] returns [ready] and leaves
    the ref as it is, however many of them follow one another; a render
    that returns something else has been given a ready or a failed value;
    and a render given a ready or a failed value returns that value and
    stores it in the ref.  The same holds of the later version of the
    hook, along the histories of a component that calls it, where renders
    may also be caused by the timer of the activity report. *)
Theorem useRemoteLatest_retains_ready (ready : RemoteData T E) :
  isReady ready = true →
  (∀ inputs : list (RemoteData T E),
      Forall (λ d, d = NOT_ASKED ∨ d = LOADING) inputs →
      RemoteLatest.renders (Some ready) inputs
      = (replicate (length inputs) ready, Some ready))
  ∧ (∀ data,
        RemoteLatest.useRemoteLatest (Some ready) data ≠ ready →
        isReady data = true ∨ isFailure data = true)
  ∧ (∀ data,
        isReady data = true ∨ isFailure data = true →
        RemoteLatest.useRemoteLatest (Some ready) data = data)
  ∧ (∀ options (pre calm : list (Event T E)),
        let w := run options start pre in
        returned w = Some ready →
        Forall unsettling calm →
        returned (run options w calm) = Some ready
        ∧ shown <$> hook (run options w calm) = Some ready)
  ∧ (∀ options (pre : list (Event T E)) data,
        let w := run options start pre in
        returned w = Some ready →
        isReady data = true ∨ isFailure data = true →
        returned (step options w (Render data)) = Some data
        ∧ shown <$> hook (step options w (Render data)) = Some data).
Proof.
  intros Hready.
  assert (∀ data : RemoteData T E,
             isReady data = true ∨ isFailure data = true ↔ isSettled data = true)
    as Hsettled.
  { intros data. unfold isSettled. by rewrite orb_true_iff. }
  assert (∀ (w : World T E),
             retaining w →
             ∀ v, returned w = Some v → shown <$> hook w = Some v) as Hslot.
  { intros w Hw v Hret. unfold retaining in Hw.
    destruct (hook w), (data w); try done.
    - destruct Hw as [Hshown _]. simpl. congruence.
    - congruence. }
  split_and!.
  - intros inputs Hinputs. by apply renders_stale.
  - intros data Hchanged. apply Hsettled.
    destruct (isSettled data) eqn:Hd; [done|].
    by rewrite useRemoteLatest_stale in Hchanged.
  - intros data Hd%Hsettled. by apply useRemoteLatest_settled.
  - intros options pre calm w Hret Hcalm.
    assert (retaining w) as Hw by apply retaining_run, retaining_start.
    pose proof (run_unsettling options calm w ready Hw Hret Hready Hcalm) as Hret'.
    split; [done|].
    eapply Hslot; [|done]. by apply retaining_run.
  - intros options pre data w Hret Hd%Hsettled.
    assert (retaining w) as Hw by apply retaining_run, retaining_start.
    assert (returned (step options w (Render data)) = Some data) as Hret'.
    { rewrite (step_returned options w (Render data) Hw).
      by rewrite useRemoteLatest_settled. }
    split; [done|]. eapply Hslot; [|done]. by apply retaining_step.
Qed.
End ReconcilerClaim.

Lemma useRemoteLatest_retains_ready_witness :
  RemoteLatest.renders (Some (Val 1%nat : RemoteData nat nat)) [LOADING; NOT_ASKED; LOADING]
  = ([Val 1%nat; Val 1%nat; Val 1%nat], Some (Val 1%nat))
  ∧ RemoteLatest.useRemoteLatest (Some (Val 1%nat : RemoteData nat nat)) (Failure 2%nat)
    = Failure 2%nat.
Proof.
  destruct (useRemoteLatest_retains_ready (Val 1%nat : RemoteData nat nat) eq_refl)
    as (Hkept & _ & Hsnap & _).
  split.
  - apply (Hkept [LOADING; NOT_ASKED; LOADING]).
    constructor; [by right|]. constructor; [by left|].
    constructor; [by right|]. constructor.
  - apply Hsnap. by right.
Defined.

(** ** The promise adapter *)
Section PromiseFacts.
Import Promise.
Context {T E : Type} `{EqDecision T, EqDecision E, !Callable T E}.

Implicit Types (w : World T E) (h : Hook T E) (o : Outcome T E)
  (r : nat * nat) (fl : list bool) (st : gmap nat (Outcome T E)).

Lemma react_irrelevant fl st state r :
  relevant fl r = false → react fl st state r = state.
Proof.
  unfold relevant, react. intros ->. by destruct (st !! r.1).
Qed.

(** Reactions leave the state when none of the relevant ones has a
    settled promise. *)
Lemma foldl_react_quiet fl st state (rs : list (nat * nat)) :
  (∀ r, r ∈ rs → relevant fl r = true → st !! r.1 = None) →
  foldl (react fl st) state rs = state.
Proof.
  induction rs as [|r rs IH]; intros Hquiet; [done|].
  simpl. assert (react fl st state r = state) as ->.
  { destruct (relevant fl r) eqn:Hrel; [|by apply react_irrelevant].
    unfold react. by rewrite (Hquiet r) by set_solver. }
  apply IH. intros; apply Hquiet; set_solver.
Qed.

(** A render with the promise of the last commit changes nothing. *)
Lemma usePromise_same fl rs h :
  usePromise fl rs (Some h) (promiseDep h) = (fl, rs, h, data h).
Proof.
  unfold usePromise. simpl fmap. rewrite depsChanged_same. by destruct h.
Qed.

Lemma rerender_spec before w h :
  hook w = Some h → promise w = promiseDep h →
  rerender before w
  = {| hook := hook w; promise := promise w;
       returned := if bool_decide (before = Some (data h))
                   then returned w else Some (data h);
       flags := flags w; reactions := reactions w; settled := settled w |}.
Proof.
  intros Hh Hp. unfold rerender. rewrite Hh, Hp, usePromise_same.
  case_bool_decide; [|by rewrite <- Hh, <- Hp].
  destruct w; simpl in *; congruence.
Qed.

Lemma linked_start : linked (start : World T E).
Proof. split; simpl; try done; [intros r []%elem_of_nil..|constructor]. Qed.

(** What the render that is given [p] returns: the state as the last
    commit left it, and on the first render the initial state. *)
Lemma render_returned_state w p :
  linked w → returned (render w p) = Some (default (pending p) (returned w)).
Proof.
  intros Hw. unfold render, usePromise.
  destruct (hook w) as [h|] eqn:Hh.
  - destruct (linked_promise w Hw h Hh) as [_ ->]. simpl.
    by destruct (bool_decide _), p.
  - rewrite (linked_unmounted w Hw Hh). by destruct p.
Qed.
End PromiseFacts.

Section PromiseSteps.
Import Promise.
Context {T E : Type} `{EqDecision T, EqDecision E, !Callable T E}.

Implicit Types (w : World T E) (h : Hook T E) (o : Outcome T E)
  (r : nat * nat) (fl : list bool) (st : gmap nat (Outcome T E)).

Lemma step_render_same w h :
  linked w → hook w = Some h → step w (Render (promiseDep h)) = w.
Proof.
  intros Hw Hh. destruct (linked_promise w Hw h Hh) as [Hp Hret].
  unfold step, render. rewrite Hh, usePromise_same. cbn [returned].
  erewrite rerender_spec; [|done|done]. simpl.
  rewrite bool_decide_eq_true_2 by done.
  destruct w; simpl in *; congruence.
Qed.

Lemma step_render_changed w p :
  (∀ h, hook w = Some h → promiseDep h ≠ p) →
  step w (Render p)
  = {| hook := Some {| data := pending p; promiseDep := p;
                       cleanup := match p with
                                  | Some _ => Some (length (cleaned w))
                                  | None => None
                                  end |};
       promise := p;
       returned := Some (pending p);
       flags := cleaned w ++ [true];
       reactions := reactions w
                    ++ match p with
                       | Some q => [(q, length (cleaned w))]
                       | None => []
                       end;
       settled := settled w |}.
Proof.
  intros Hne. unfold step, render, usePromise.
  assert (depsChanged (promiseDep <$> hook w) p = true) as ->.
  { destruct (hook w) as [h|] eqn:Hh; [|done].
    apply depsChanged_other. by apply Hne. }
  fold (cleaned w). fold (@pending T E p).
  destruct p as [q|].
  - erewrite rerender_spec; [|done|done]. simpl.
    by case_bool_decide as Hc; [injection Hc as ->|].
  - erewrite rerender_spec; [|done|done]. simpl. rewrite app_nil_r.
    by case_bool_decide as Hc; [injection Hc as ->|].
Qed.

Lemma step_flush w h :
  linked w → hook w = Some h →
  let state := foldl (react (flags w) (settled w)) (data h) (reactions w) in
  step w Flush
  = {| hook := Some {| data := state; promiseDep := promiseDep h;
                       cleanup := cleanup h |};
       promise := promise w;
       returned := Some state;
       flags := flags w;
       reactions := filter (λ r, settled w !! r.1 = None) (reactions w);
       settled := settled w |}.
Proof.
  intros Hw Hh state. destruct (linked_promise w Hw h Hh) as [Hp Hret].
  unfold step. rewrite Hh. fold state.
  erewrite rerender_spec; [|done|done]. simpl. rewrite Hret.
  by case_bool_decide as Hc; [injection Hc as <-|].
Qed.
End PromiseSteps.

Section PromiseInvariant.
Import Promise.
Context {T E : Type} `{EqDecision T, EqDecision E, !Callable T E}.

Implicit Types (w : World T E) (h : Hook T E) (o : Outcome T E)
  (r : nat * nat) (fl : list bool) (st : gmap nat (Outcome T E)).

Lemma length_cleaned w : length (cleaned w) = length (flags w).
Proof. unfold cleaned. destruct (hook w ≫= cleanup); [apply length_insert|done]. Qed.

(** After the cleanup no waiting reaction is relevant. *)
Lemma cleaned_irrelevant w r :
  linked w → r ∈ reactions w → relevant (cleaned w ++ [true]) r = false.
Proof.
  intros Hw Hr. pose proof (linked_bound w Hw r Hr) as Hb.
  unfold relevant. rewrite lookup_app_l by (rewrite length_cleaned; lia).
  destruct (default false (cleaned w !! r.2)) eqn:Hrel; [|done]. exfalso.
  unfold cleaned in Hrel.
  destruct (hook w ≫= cleanup) as [k0|] eqn:Hk0.
  - destruct (decide (k0 = r.2)) as [->|Hne].
    + rewrite list_lookup_insert_eq in Hrel by lia. done.
    + rewrite list_lookup_insert_ne in Hrel by done.
      destruct (linked_relevant w Hw r Hr Hrel) as (h & Hh & Hc & _).
      rewrite Hh in Hk0. simpl in Hk0. congruence.
  - destruct (linked_relevant w Hw r Hr Hrel) as (h & Hh & Hc & _).
    rewrite Hh in Hk0. simpl in Hk0. congruence.
Qed.

Lemma linked_render_changed w p :
  linked w → (∀ h, hook w = Some h → promiseDep h ≠ p) →
  linked (step w (Render p)).
Proof.
  intros Hw Hne. rewrite step_render_changed by done.
  split; simpl.
  - intros r [Hr|Hr]%elem_of_app; rewrite length_app; simpl.
    + pose proof (linked_bound w Hw r Hr). rewrite length_cleaned. lia.
    + destruct p; [|by apply elem_of_nil in Hr].
      apply list_elem_of_singleton in Hr as ->. simpl. lia.
  - intros r [Hr|Hr]%elem_of_app Hrel.
    { by rewrite cleaned_irrelevant in Hrel. }
    destruct p as [q|]; [|by apply elem_of_nil in Hr].
    apply list_elem_of_singleton in Hr as ->. eexists. done.
  - intros h' [= <-]. done.
  - intros h' k [= <-]. simpl. destruct p; [|done]. intros [= <-].
    rewrite length_app. simpl. split; [lia|].
    by rewrite lookup_app_r, Nat.sub_diag by lia.
  - intros h' p' [= <-]. simpl. intros ->. eexists. split; [done|].
    intros _. apply elem_of_app. right. by apply list_elem_of_singleton.
  - destruct p as [q|]; [|rewrite app_nil_r; apply Hw].
    apply NoDup_app. split_and!; [apply Hw| |apply NoDup_singleton].
    intros r Hr ->%list_elem_of_singleton.
    pose proof (linked_bound w Hw _ Hr) as Hb. simpl in Hb.
    rewrite length_cleaned in Hb. lia.
  - done.
  - intros h' [= <-]. simpl. by destruct p.
Qed.

Lemma linked_step w ev : linked w → linked (step w ev).
Proof.
  intros Hw. destruct ev as [p|p o|].
  - (* a render *)
    destruct (hook w) as [h|] eqn:Hh.
    + destruct (decide (promiseDep h = p)) as [<-|Hne].
      { by rewrite step_render_same. }
      apply linked_render_changed; [done|]. intros h'. rewrite Hh. congruence.
    + apply linked_render_changed; [done|]. intros h'. by rewrite Hh.
  - (* a promise settles *)
    destruct Hw as [Hb Hr Hp Hc Hwait Hnd Hun Hpend]. split; simpl; try done.
    + intros h p' Hh Hdep. destruct (Hwait h p' Hh Hdep) as (k & Hk & Hin).
      exists k. split; [done|]. intros Hnone. apply Hin.
      destruct (settled w !! p) eqn:Hs; [done|].
      by apply lookup_insert_None in Hnone as [? _].
    + intros h Hh. specialize (Hpend h Hh).
      destruct (promiseDep h) as [q|]; [|done].
      intros Hnone. apply Hpend.
      destruct (settled w !! p) eqn:Hs; [done|].
      by apply lookup_insert_None in Hnone as [? _].
  - (* the reactions run *)
    destruct (hook w) as [h|] eqn:Hh.
    + rewrite (step_flush w h Hw Hh). destruct Hw as [Hb Hr Hp Hc Hwait Hnd Hun Hpend].
      split; simpl.
      * intros r [_ Hin]%list_elem_of_filter. by apply Hb.
      * intros r [_ Hin]%list_elem_of_filter Hrel.
        destruct (Hr r Hin Hrel) as (h' & Hh' & Hc' & Hd').
        rewrite Hh in Hh'. injection Hh' as <-. eexists. done.
      * intros h' [= <-]. simpl. split; [|done]. by apply Hp.
      * intros h' k [= <-]. simpl. by apply Hc.
      * intros h' p' [= <-]. simpl. intros Hdep.
        destruct (Hwait h p' Hh Hdep) as (k & Hk & Hin).
        exists k. split; [done|]. intros Hnone.
        apply list_elem_of_filter. split; [done|by apply Hin].
      * by apply NoDup_filter.
      * done.
      * intros h' [= <-]. simpl. specialize (Hpend h Hh).
        destruct (promiseDep h) as [q|] eqn:Hq.
        -- intros Hnone. rewrite foldl_react_quiet; [by apply Hpend|].
           intros r Hin Hrel. destruct (Hr r Hin Hrel) as (h' & Hh' & _ & Hd').
           congruence.
        -- rewrite foldl_react_quiet; [done|].
           intros r Hin Hrel. destruct (Hr r Hin Hrel) as (h' & Hh' & _ & Hd').
           congruence.
    + simpl. rewrite Hh. destruct Hw as [Hb Hr Hp Hc Hwait Hnd Hun Hpend].
      split; simpl; try done.
      * intros r [_ Hin]%list_elem_of_filter. by apply Hb.
      * intros r [_ Hin]%list_elem_of_filter Hrel.
        destruct (Hr r Hin Hrel) as (h' & Hh' & _). congruence.
      * by apply NoDup_filter.
      * intros _. by apply Hun.
Qed.

Lemma linked_run w evs : linked w → linked (run w evs).
Proof.
  revert w. induction evs as [|ev evs IH]; intros w Hw; [done|].
  simpl. apply IH. by apply linked_step.
Qed.
End PromiseInvariant.

Section PromiseReactions.
Import Promise.
Context {T E : Type} `{EqDecision T, EqDecision E, !Callable T E}.

Implicit Types (w : World T E) (h : Hook T E) (o : Outcome T E)
  (r : nat * nat) (fl : list bool) (st : gmap nat (Outcome T E))
  (state : RemoteData T E).

Lemma react_relevant fl st state r o :
  relevant fl r = true → st !! r.1 = Some o →
  react fl st state r = setData (caught o) state.
Proof. unfold relevant, react. by intros -> ->. Qed.

Lemma react_unsettled fl st state r :
  st !! r.1 = None → react fl st state r = state.
Proof. unfold react. by intros ->. Qed.

(** A value that is not a function is stored as it is. *)
Lemma setData_plain (action state : RemoteData T E) :
  (∀ v, action = Val v → asFunction v = None) → setData action state = action.
Proof.
  intros Hplain. unfold setData. destruct action as [| | |v]; try done.
  by rewrite (Hplain v).
Qed.

(** Reactions none of which is relevant leave the state. *)
Lemma foldl_react_idle fl st state (rs : list (nat * nat)) :
  (∀ r, r ∈ rs → relevant fl r = false) → foldl (react fl st) state rs = state.
Proof.
  induction rs as [|r rs IH]; intros Hidle; [done|].
  simpl. rewrite react_irrelevant by (apply Hidle; set_solver).
  apply IH. intros; apply Hidle; set_solver.
Qed.

(** When [r0] is the one relevant reaction, the reactions do what [r0]
    does, once. *)
Lemma foldl_react_one fl st state (rs : list (nat * nat)) r0 :
  NoDup rs → (∀ r, r ∈ rs → relevant fl r = true → r = r0) → r0 ∈ rs →
  foldl (react fl st) state rs = react fl st state r0.
Proof.
  revert state. induction rs as [|r rs IH]; intros state Hnd Hone Hin.
  { by apply elem_of_nil in Hin. }
  apply NoDup_cons in Hnd as [Hr Hnd]. simpl.
  destruct (decide (r = r0)) as [->|Hne].
  - apply foldl_react_idle. intros r Hrs.
    destruct (relevant fl r) eqn:Hrel; [|done].
    rewrite (Hone r) in Hrs by set_solver. done.
  - rewrite react_irrelevant.
    + apply IH; [done|intros; apply Hone; set_solver|set_solver].
    + destruct (relevant fl r) eqn:Hrel; [|done].
      destruct Hne. apply Hone; [set_solver|done].
Qed.

(** The reactions either leave the state or set it once, with what a
    settled promise with a relevant reaction gives. *)
Lemma foldl_react_cases fl st state (rs : list (nat * nat)) :
  NoDup rs →
  (∀ r r', r ∈ rs → r' ∈ rs → relevant fl r = true → relevant fl r' = true → r = r') →
  foldl (react fl st) state rs = state
  ∨ ∃ r o, r ∈ rs ∧ relevant fl r = true ∧ st !! r.1 = Some o
           ∧ foldl (react fl st) state rs = setData (caught o) state.
Proof.
  intros Hnd Hone.
  destruct (decide (Exists (λ r, relevant fl r = true) rs)) as [Hex|Hnone].
  - apply Exists_exists in Hex as (r0 & Hin & Hrel).
    rewrite (foldl_react_one fl st state rs r0) by eauto.
    destruct (st !! r0.1) as [o|] eqn:Hst.
    + right. exists r0, o. by rewrite (react_relevant _ _ _ _ o).
    + left. by apply react_unsettled.
  - left. apply foldl_react_idle. intros r Hr.
    destruct (relevant fl r) eqn:Hrel; [|done].
    destruct Hnone. apply Exists_exists. eauto.
Qed.

(** When the one relevant reaction waits for [p], the reactions set the
    state with what [p] settled with. *)
Lemma foldl_react_caught fl st state (rs : list (nat * nat)) r0 o :
  NoDup rs → (∀ r, r ∈ rs → relevant fl r = true → r = r0) →
  r0 ∈ rs → relevant fl r0 = true → st !! r0.1 = Some o →
  foldl (react fl st) state rs = setData (caught o) state.
Proof.
  intros Hnd Hone Hin Hrel Hst.
  rewrite (foldl_react_one fl st state rs r0) by done.
  by apply react_relevant.
Qed.

(** In a world of a history, the relevant reactions are those of the last
    run of the effect. *)
Lemma linked_one w h k p r :
  linked w → hook w = Some h → cleanup h = Some k → promiseDep h = Some p →
  r ∈ reactions w → relevant (flags w) r = true → r = (p, k).
Proof.
  intros Hw Hh Hk Hp Hr Hrel.
  destruct (linked_relevant w Hw r Hr Hrel) as (h' & Hh' & Hc & Hd).
  destruct r as [p' k']. simpl in *. congruence.
Qed.

(** What running the reactions does to what the hook returns: nothing, or
    the watched promise has settled and its result is given to [setData]. *)
Lemma step_flush_cases w :
  linked w →
  returned (step w Flush) = returned w
  ∨ ∃ p o state, watched w = Some p ∧ settled w !! p = Some o
                 ∧ returned w = Some state
                 ∧ returned (step w Flush) = Some (setData (caught o) state).
Proof.
  intros Hw. destruct (hook w) as [h|] eqn:Hh.
  - rewrite (step_flush w h Hw Hh). simpl.
    destruct (linked_promise w Hw h Hh) as [_ Hret]. rewrite Hret.
    destruct (foldl_react_cases (flags w) (settled w) (data h) (reactions w))
      as [->|(r & o' & Hr & Hrel & Hst & ->)]; [apply Hw| |by left|].
    + intros r r' Hr Hr' Hrel Hrel'.
      destruct (linked_relevant w Hw r Hr Hrel) as (h1 & Hh1 & Hc1 & Hd1).
      destruct (linked_relevant w Hw r' Hr' Hrel') as (h2 & Hh2 & Hc2 & Hd2).
      destruct r, r'. simpl in *. congruence.
    + right. destruct (linked_relevant w Hw r Hr Hrel) as (h' & Hh' & _ & Hd).
      exists r.1, o', (data h). split_and!; [|done|done|done].
      unfold watched. rewrite Hh'. done.
  - left. simpl. by rewrite Hh.
Qed.
End PromiseReactions.

Section PromiseResultClaim.
Import Promise.
Context {T E : Type} `{EqDecision T, EqDecision E, !Callable T E}.

(** What the hook returns once the promise it watches has settled and the
    reactions have run: the result of the promise, given to [setData] with
    the state the hook returned before. *)
Lemma step_flush_settled (w : World T E) (p : nat) (o : Outcome T E) state :
  linked w → watched w = Some p → settled w !! p = None →
  returned w = Some state →
  returned (run w [Settle p o; Flush]) = Some (setData (caught o) state).
Proof.
  intros Hw Hwatched Hunsettled Hret.
  unfold watched in Hwatched.
  destruct (hook w) as [h|] eqn:Hh; [|done]. simpl in Hwatched.
  destruct (linked_waiting w Hw h p Hh Hwatched) as (k & Hk & Hin).
  destruct (linked_cleanup w Hw h k Hh Hk) as [_ Hflag].
  destruct (linked_promise w Hw h Hh) as [_ Hdata].
  assert (state = data h) as -> by congruence.
  set (w1 := step w (Settle p o)).
  assert (linked w1) as Hw1 by by apply linked_step.
  change (run w [Settle p o; Flush]) with (step w1 Flush).
  rewrite (step_flush w1 h Hw1) by (by unfold w1; simpl).
  simpl. rewrite Hunsettled. f_equal.
  apply (foldl_react_caught _ _ _ _ (p, k) o).
  - apply Hw.
  - intros r Hr Hrel. by apply (linked_one w h).
  - by apply Hin.
  - unfold relevant. simpl. by rewrite Hflag.
  - apply lookup_insert_eq.
Qed.

End PromiseResultClaim.


(** ** Settlements of a promise the hook does not watch *)
Section PromiseSuperseded.
Import Promise.
Context {T E : Type} `{EqDecision T, EqDecision E, !Callable T E}.

Implicit Types (w wL wR : World T E) (h : Hook T E) (o : Outcome T E)
  (r : nat * nat) (fl : list bool) (st : gmap nat (Outcome T E))
  (state : RemoteData T E).

Variable p1 : nat.

Lemma foldl_react_skip fl st state (rs : list (nat * nat)) :
  (∀ r, r ∈ rs → r.1 = p1 → relevant fl r = false) →
  foldl (react fl st) state rs
  = foldl (react fl st) state (filter (λ r, r.1 ≠ p1) rs).
Proof.
  revert state. induction rs as [|r rs IH]; intros state Hdead; [done|].
  rewrite filter_cons. simpl. case_decide as Hr.
  - simpl. apply IH. intros; apply Hdead; set_solver.
  - rewrite react_irrelevant.
    + apply IH. intros; apply Hdead; set_solver.
    + apply Hdead; [set_solver|]. by destruct (decide (r.1 = p1)).
Qed.

Lemma foldl_react_agree fl st1 st2 state (rs : list (nat * nat)) :
  (∀ p, p ≠ p1 → st1 !! p = st2 !! p) →
  (∀ r, r ∈ rs → r.1 ≠ p1) →
  foldl (react fl st1) state rs = foldl (react fl st2) state rs.
Proof.
  intros Hst. revert state. induction rs as [|r rs IH]; intros state Hrs; [done|].
  simpl. unfold react at 2 4. rewrite (Hst r.1) by (apply Hrs; set_solver).
  apply IH. intros; apply Hrs; set_solver.
Qed.

Lemma filter_waiting st1 st2 (rs : list (nat * nat)) :
  (∀ p, p ≠ p1 → st1 !! p = st2 !! p) →
  filter (λ r, r.1 ≠ p1) (filter (λ r, st1 !! r.1 = None) rs)
  = filter (λ r, st2 !! r.1 = None) (filter (λ r, r.1 ≠ p1) rs).
Proof.
  intros Hst. induction rs as [|r rs IH]; [done|].
  rewrite !filter_cons.
  destruct (decide (r.1 ≠ p1)) as [Hr|Hr].
  - rewrite filter_cons, <- (Hst r.1 Hr).
    destruct (decide (st1 !! r.1 = None)).
    + rewrite filter_cons, decide_True by done. by rewrite IH.
    + done.
  - destruct (decide (st1 !! r.1 = None)); [|done].
    rewrite filter_cons, decide_False by done. done.
Qed.

Lemma foldl_react_both wL wR state :
  agree p1 wL wR →
  foldl (react (flags wL) (settled wL)) state (reactions wL)
  = foldl (react (flags wR) (settled wR)) state (reactions wR).
Proof.
  intros [_ _ _ Hfl Hst Hrs HdL HdR _ _].
  rewrite foldl_react_skip by done.
  rewrite (foldl_react_skip (flags wR)) by done.
  rewrite Hrs, Hfl. apply foldl_react_agree; [done|].
  by intros r [? _]%list_elem_of_filter.
Qed.

Lemma filter_waiting_both wL wR :
  agree p1 wL wR →
  filter (λ r, r.1 ≠ p1) (filter (λ r, settled wL !! r.1 = None) (reactions wL))
  = filter (λ r, r.1 ≠ p1) (filter (λ r, settled wR !! r.1 = None) (reactions wR)).
Proof.
  intros [_ _ _ _ Hst Hrs _ _ _ _].
  rewrite (filter_waiting (settled wL) (settled wR)) by done.
  rewrite (filter_waiting (settled wR) (settled wR)) by done.
  by rewrite Hrs.
Qed.
End PromiseSuperseded.

Section PromiseSupersededClaim.
Import Promise.
Context {T E : Type} `{EqDecision T, EqDecision E, !Callable T E}.

Implicit Types (w : World T E) (h : Hook T E) (o : Outcome T E)
  (r : nat * nat).

Lemma cleaned_agree p1 (wL wR : World T E) :
  agree p1 wL wR → cleaned wL = cleaned wR.
Proof.
  intros Ha. unfold cleaned.
  by rewrite (agree_hook _ _ _ Ha), (agree_flags _ _ _ Ha).
Qed.

Lemma agree_render_changed p1 (wL wR : World T E) p :
  p ≠ Some p1 → agree p1 wL wR →
  (∀ h, hook wR = Some h → promiseDep h ≠ p) →
  agree p1 (step wL (Render p)) (step wR (Render p)).
Proof.
  intros Hp Ha Hne.
  pose proof (agree_linked_l _ _ _ Ha) as HL.
  pose proof (agree_linked_r _ _ _ Ha) as HR.
  pose proof (agree_hook _ _ _ Ha) as Hhook.
  pose proof (cleaned_agree p1 wL wR Ha) as Hcl.
  assert (linked (step wL (Render p))) as HL' by by apply linked_step.
  assert (linked (step wR (Render p))) as HR' by by apply linked_step.
  rewrite step_render_changed in HL' |- * by (rewrite Hhook; apply Hne).
  rewrite step_render_changed in HR' |- * by apply Hne.
  split; simpl; try done.
  - by rewrite Hcl.
  - by rewrite Hcl.
  - apply Ha.
  - rewrite !filter_app, Hcl. f_equal. apply Ha.
  - intros r [Hr|Hr]%elem_of_app Hp1; [by apply cleaned_irrelevant|].
    destruct p as [q|]; [|by apply elem_of_nil in Hr].
    apply list_elem_of_singleton in Hr as ->. simpl in Hp1. congruence.
  - intros r [Hr|Hr]%elem_of_app Hp1; [by apply cleaned_irrelevant|].
    destruct p as [q|]; [|by apply elem_of_nil in Hr].
    apply list_elem_of_singleton in Hr as ->. simpl in Hp1. congruence.
Qed.

Lemma agree_step p1 (wL wR : World T E) ev :
  ev ≠ Render (Some p1) →
  agree p1 wL wR → agree p1 (step wL ev) (step wR ev).
Proof.
  intros Hev Ha.
  pose proof (agree_linked_l _ _ _ Ha) as HL.
  pose proof (agree_linked_r _ _ _ Ha) as HR.
  pose proof (agree_hook _ _ _ Ha) as Hhook.
  assert (linked (step wL ev)) as HL' by by apply linked_step.
  assert (linked (step wR ev)) as HR' by by apply linked_step.
  destruct ev as [p|p o|].
  - (* a render *)
    destruct (hook wR) as [h|] eqn:Hh.
    + destruct (decide (promiseDep h = p)) as [<-|Hne].
      * by rewrite !step_render_same.
      * apply agree_render_changed; [congruence|done|]. intros h'. rewrite Hh. congruence.
    + apply agree_render_changed; [congruence|done|]. intros h'. rewrite Hh. congruence.
  - (* a promise settles *)
    destruct Ha as [Hh Hp Hr Hfl Hst Hrs HdL HdR _ _].
    split; simpl; try done.
    intros p' Hp'. destruct (decide (p = p1)) as [->|Hne].
    + destruct (settled wL !! p1), (settled wR !! p1);
        rewrite ?lookup_insert_ne by done; by apply Hst.
    + rewrite <- (Hst p Hne). destruct (settled wL !! p) eqn:Hs; [by apply Hst|].
      destruct (decide (p = p')) as [->|Hne'].
      * by rewrite !lookup_insert_eq.
      * rewrite !lookup_insert_ne by done. by apply Hst.
  - (* the reactions run *)
    pose proof (foldl_react_both p1 wL wR) as Hfold.
    pose proof (filter_waiting_both p1 wL wR Ha) as Hfilter.
    destruct (hook wR) as [h|] eqn:Hh.
    + rewrite (step_flush wL h) in HL' |- * by done.
      rewrite (step_flush wR h) in HR' |- * by done.
      rewrite (Hfold (data h) Ha) in HL' |- *.
      destruct Ha as [_ Hp Hr Hfl Hst Hrs HdL HdR _ _].
      split; simpl; try done.
      * intros r [_ Hin]%list_elem_of_filter. by apply HdL.
      * intros r [_ Hin]%list_elem_of_filter. by apply HdR.
    + unfold step in HL', HR' |- *. rewrite Hhook in HL' |- *. rewrite Hh in HR' |- *.
      destruct Ha as [_ Hp Hr Hfl Hst Hrs HdL HdR _ _].
      split; simpl; try done.
      * intros r [_ Hin]%list_elem_of_filter. by apply HdL.
      * intros r [_ Hin]%list_elem_of_filter. by apply HdR.
Qed.

Lemma agree_run p1 (wL wR : World T E) evs :
  Forall (λ ev, ev ≠ Render (Some p1)) evs →
  agree p1 wL wR → agree p1 (run wL evs) (run wR evs).
Proof.
  intros Hevs. revert wL wR.
  induction Hevs as [|ev evs Hev Hevs IH]; intros wL wR Ha; [done|].
  simpl. apply IH. by apply agree_step.
Qed.

Lemma agree_settle p1 w o :
  linked w → watched w ≠ Some p1 → agree p1 (step w (Settle p1 o)) w.
Proof.
  intros Hw Hwatched.
  assert (∀ r, r ∈ reactions w → r.1 = p1 → relevant (flags w) r = false) as Hdead.
  { intros r Hr Hp1. destruct (relevant (flags w) r) eqn:Hrel; [|done].
    destruct (linked_relevant w Hw r Hr Hrel) as (h & Hh & _ & Hd).
    destruct Hwatched. unfold watched. rewrite Hh. simpl. congruence. }
  split; simpl; try done.
  - intros p Hp. destruct (settled w !! p1); [done|]. by rewrite lookup_insert_ne.
  - by apply (linked_step w (Settle p1 o)).
Qed.

(** C2. Once the hook watches another promise than [p1] (a later one was
    given, or none), the settlement of [p1] changes nothing of what the
    hook returns, now or later, whatever happens next, as long as [p1]
    itself is not given to the hook again: the histories with and without
    the settlement return the same.  The settlement is not an error: the
    reaction runs and does nothing.  When the reactions run, what the hook
    returns either stays or becomes what [setData] makes of the result of
    the watched promise. *)
Theorem usePromise_ignores_superseded
    (pre post : list (Event T E)) (p1 : nat) (o : Outcome T E) :
  let w := run start pre in
  watched w ≠ Some p1 →
  Forall (λ ev, ev ≠ Render (Some p1)) post →
  returned (run w (Settle p1 o :: post)) = returned (run w post)
  ∧ (returned (step w Flush) = returned w
     ∨ ∃ p o' state, watched w = Some p ∧ settled w !! p = Some o'
                     ∧ returned w = Some state
                     ∧ returned (step w Flush) = Some (setData (caught o') state)).
Proof.
  intros w Hwatched Hpost.
  assert (linked w) as Hw by apply linked_run, linked_start.
  split.
  - apply (agree_returned p1). simpl. apply agree_run; [done|].
    by apply agree_settle.
  - by apply step_flush_cases.
Qed.
End PromiseSupersededClaim.

Lemma usePromise_ignores_superseded_witness :
  Promise.returned
    (Promise.run
       (Promise.run Promise.start
          [Promise.Render (Some 1%nat); Promise.Render (Some 2%nat)])
       [Promise.Settle 1%nat (Promise.Resolved (Val 7%nat : RemoteData nat nat));
        Promise.Flush])
  = Promise.returned
      (Promise.run
         (Promise.run Promise.start
            [Promise.Render (Some 1%nat); Promise.Render (Some 2%nat)])
         [Promise.Flush]).
Proof.
  apply (usePromise_ignores_superseded
           [Promise.Render (Some 1%nat); Promise.Render (Some 2%nat)]
           [Promise.Flush] 1%nat
           (Promise.Resolved (Val 7%nat : RemoteData nat nat))).
  - vm_compute. congruence.
  - constructor; [congruence|constructor].
Defined.

(** ** The scenarios of the specification, run on the model *)
Section Scenarios.
Local Open Scope string_scope.

(** The example of the documentation of [useTimeout]: 1000 ms, then 750 ms
    given 500 ms later; the callback is called at 1250 ms. *)
Example useTimeout_documented_reset :
  Timeout.calls
    (Timeout.run Timeout.start
       [Timeout.Render "cb" (Timeout.DelayMs 1000); Timeout.Wait 500;
        Timeout.Render "cb" (Timeout.DelayMs 750); Timeout.Wait 2000])
  = [(1250, "cb")].
Proof. reflexivity. Qed.

(** [NOT_ASKED], then [LOADING] for 50 ms, then ready with ["A"], the
    loading timeout being 150 ms: nothing, nothing, then the children
    called with ["A"]. *)
Example RemoteSuspense_short_load :
  Suspense.rendered (Suspense.run panel Suspense.start [Suspense.Render NOT_ASKED])
  = Some (Suspense.RFragment [])
  ∧ Suspense.rendered
      (Suspense.run panel Suspense.start
         [Suspense.Render NOT_ASKED; Suspense.Render LOADING; Suspense.Wait 50])
    = Some (Suspense.RFragment [Suspense.RBool false])
  ∧ Suspense.rendered
      (Suspense.run panel Suspense.start
         [Suspense.Render NOT_ASKED; Suspense.Render LOADING; Suspense.Wait 50;
          Suspense.Render (Val "A")])
    = Some (Suspense.RFragment [Suspense.RElement "A"]).
Proof. split_and!; reflexivity. Qed.

(** The same, the data staying [LOADING] for 150 ms: the loading view. *)
Example RemoteSuspense_long_load :
  Suspense.rendered
    (Suspense.run panel Suspense.start
       [Suspense.Render NOT_ASKED; Suspense.Render LOADING; Suspense.Wait 150])
  = Some (Suspense.RFragment [Suspense.RElement "spinner"]).
Proof. reflexivity. Qed.

(** Ready with ["A"], then [LOADING] for 100 ms, then ready with ["B"],
    the threshold being 250 ms: ["A"] is returned while loading, no
    registration is ever made, and ["B"] is returned at the end. *)
Example useRemoteLatest_short_refresh :
  let loading :=
    chart [RemoteLatestIndicator.Render (Val "A");
           RemoteLatestIndicator.Render LOADING; RemoteLatestIndicator.Wait 100] in
  let done :=
    RemoteLatestIndicator.step RemoteLatestIndicator.noOptions loading
      (RemoteLatestIndicator.Render (Val "B")) in
  RemoteLatestIndicator.returned loading = Some (Val "A")
  ∧ RemoteLatestIndicator.returned done = Some (Val "B")
  ∧ RemoteLatestIndicator.uniqueId done = 0%N
  ∧ ActivityIndicator.isIndicating (RemoteLatestIndicator.registry done) = false.
Proof. split_and!; reflexivity. Qed.

(** The same, loading for 400 ms: one registration, made at 250 ms and
    withdrawn by the render with ["B"]; ["A"] is returned throughout the
    loading. *)
Example useRemoteLatest_long_refresh :
  let before :=
    chart [RemoteLatestIndicator.Render (Val "A");
           RemoteLatestIndicator.Render LOADING; RemoteLatestIndicator.Wait 249] in
  let at250 := RemoteLatestIndicator.step RemoteLatestIndicator.noOptions before
                 (RemoteLatestIndicator.Wait 1) in
  let at400 := RemoteLatestIndicator.step RemoteLatestIndicator.noOptions at250
                 (RemoteLatestIndicator.Wait 150) in
  let done := RemoteLatestIndicator.step RemoteLatestIndicator.noOptions at400
                (RemoteLatestIndicator.Render (Val "B")) in
  RemoteLatestIndicator.reported before = false
  ∧ RemoteLatestIndicator.reported at250 = true
  ∧ ActivityIndicator.isIndicating (RemoteLatestIndicator.registry at250) = true
  ∧ RemoteLatestIndicator.returned at400 = Some (Val "A")
  ∧ RemoteLatestIndicator.reported at400 = true
  ∧ RemoteLatestIndicator.returned done = Some (Val "B")
  ∧ RemoteLatestIndicator.reported done = false
  ∧ ActivityIndicator.isIndicating (RemoteLatestIndicator.registry done) = false
  ∧ RemoteLatestIndicator.uniqueId done = 1%N.
Proof. split_and!; vm_compute; reflexivity. Qed.

(** A delay of 2^31 ms is out of the range of the timers: the callback is
    called 1 ms after the call of the hook. *)
Example useTimeout_out_of_range :
  Timeout.calls
    (Timeout.run Timeout.start
       [Timeout.Render "cb" (Timeout.DelayMs 2147483648); Timeout.Wait 1])
  = [(1, "cb")].
Proof. reflexivity. Qed.

(** So with a loading timeout of 2^31 ms the loading view is there after
    20 ms of [LOADING], and with a threshold of 2^31 ms the registration
    is made within 20 ms of stale data. *)
Example RemoteSuspense_out_of_range :
  Suspense.rendered
    (Suspense.run
       {| Suspense.loadingTimeout := Some 2147483648;
          Suspense.loadingFallback := Some (Suspense.RElement "spinner");
          Suspense.failureFallback := None;
          Suspense.children := Suspense.RElement |}
       (Suspense.start : Suspense.World string string string)
       [Suspense.Render LOADING; Suspense.Wait 20])
  = Some (Suspense.RFragment [Suspense.RElement "spinner"]).
Proof. reflexivity. Qed.

Example useRemoteLatest_out_of_range :
  RemoteLatestIndicator.reported
    (RemoteLatestIndicator.run
       {| RemoteLatestIndicator.hideIndicator := None;
          RemoteLatestIndicator.indicatorTimeout := Some 2147483648 |}
       (RemoteLatestIndicator.start : RemoteLatestIndicator.World string string)
       [RemoteLatestIndicator.Render (Val "A");
        RemoteLatestIndicator.Render LOADING; RemoteLatestIndicator.Wait 20])
  = true.
Proof. vm_compute. reflexivity. Qed.

(** A ready [NaN] is not [===] to itself: the hook returns it, and counts
    it as old data.  After 250 ms the registration is made, although the
    staleness condition has never held. *)
Example useRemoteLatest_NaN :
  let evs : list (RemoteLatestIndicator.Event Number string) :=
    [RemoteLatestIndicator.Render (Val NaN); RemoteLatestIndicator.Wait 250] in
  let w :=
    RemoteLatestIndicator.run RemoteLatestIndicator.noOptions
      RemoteLatestIndicator.start evs in
  RemoteLatestIndicator.returned w = Some (Val NaN)
  ∧ RemoteLatestIndicator.staleFor RemoteLatestIndicator.noOptions evs = None
  ∧ RemoteLatestIndicator.reported w = true
  ∧ ActivityIndicator.isIndicating (RemoteLatestIndicator.registry w) = true.
Proof. split_and!; vm_compute; reflexivity. Qed.
End Scenarios.

(** * Further properties of the code *)

(** ** [useTimeout]: clearing and firing once *)
Section TimeoutFurther.
Import Timeout.
Context {Cb : Type} `{EqDecision Cb}.

Implicit Types (w : World Cb) (h : Hook Cb) (cb : Cb).

(** In every world of a history, a timer is pending only while the delay
    of the last commit is a number. *)
Lemma run_timer_numeric (evs : list (Event Cb)) h deadline :
  hook (run start evs) = Some h → timer h = Some deadline →
  ∃ ms, delayDep h = DelayMs ms.
Proof.
  revert h deadline. induction evs as [|ev evs IH] using rev_ind; [done|].
  intros h deadline. rewrite run_snoc. destruct ev as [cb delay|dt]; simpl.
  - intros [= <-]. unfold useTimeout. simpl.
    destruct (hook (run start evs)) as [h'|] eqn:Hh; simpl.
    + case_bool_decide as Hdep.
      * destruct delay; [eauto|done|done].
      * intros Ht. destruct (decide (delayDep h' = delay)) as [<-|]; [|done].
        by eapply IH.
    + destruct delay; [eauto|done|done].
  - destruct (hook (run start evs)) as [h'|] eqn:Hh; simpl; [|done].
    destruct (due h' _); simpl; intros [= <-]; [done|]. by eapply IH.
Qed.

(** X1. A call of the hook with [null] or [false] as the delay clears the
    pending timer: from then on, and as long as no call gives a number,
    the callback is not called, however long one waits. *)
Theorem useTimeout_cleared_calls_nothing
    (pre post : list (Event Cb)) cb (delay : Delay) :
  (∀ ms, delay ≠ DelayMs ms) →
  Forall (λ ev, ∀ cb' ms, ev ≠ Render cb' (DelayMs ms)) post →
  calls (run (run start pre) (Render cb delay :: post)) = calls (run start pre).
Proof.
  intros Hdelay Hpost.
  assert (∀ w, (∀ h, hook w = Some h →
                     timer h = None ∧ ∀ ms, delayDep h ≠ DelayMs ms) →
               calls (run w post) = calls w) as Hquiet.
  { induction Hpost as [|ev post Hev Hpost IH]; intros w Hw; [done|].
    simpl. rewrite IH.
    - destruct ev as [cb' d|dt]; simpl; [done|].
      destruct (hook w) as [h|] eqn:Hh; [|done].
      destruct (Hw h eq_refl) as [Ht _]. unfold due. by rewrite Ht.
    - intros h'. destruct ev as [cb' d|dt]; simpl.
      + intros [= <-]. unfold useTimeout. simpl. split.
        * destruct (hook w) as [h|] eqn:Hh; simpl.
          -- destruct (Hw h eq_refl) as [Ht _].
             case_bool_decide; [|done].
             destruct d as [ms| |]; [|done|done]. by destruct (Hev cb' ms).
          -- destruct d as [ms| |]; [|done|done]. by destruct (Hev cb' ms).
        * intros ms ->. by destruct (Hev cb' ms).
      + destruct (hook w) as [h|] eqn:Hh; [|done].
        destruct (Hw h eq_refl) as [Ht Hd]. unfold due. rewrite Ht. simpl.
        intros [= <-]. done. }
  change (run (run start pre) (Render cb delay :: post))
    with (run (step (run start pre) (Render cb delay)) post).
  rewrite Hquiet; [done|].
  intros h. simpl. intros [= <-]. unfold useTimeout. simpl. split; [|done].
  destruct (hook (run start pre)) as [h'|] eqn:Hh; simpl.
  - case_bool_decide as Hdep; [by destruct delay as [ms| |]; [destruct (Hdelay ms)|..]|].
    destruct (timer h') as [deadline|] eqn:Ht; [|done].
    destruct (run_timer_numeric pre h' deadline Hh Ht) as [ms Hms].
    destruct (decide (delayDep h' = delay)) as [<-|]; [|done].
    by destruct (Hdelay ms).
  - by destruct delay as [ms| |]; [destruct (Hdelay ms)|..].
Qed.

(** X2. The timeout fires once: when the clock passes the deadline of the
    pending timer, the current callback is called, and no wait and no call
    of the hook with the same delay makes it called again. *)
Theorem useTimeout_fires_once w h (deadline : Z) (dt : N) (post : list (Event Cb)) :
  hook w = Some h → timer h = Some deadline → deadline ≤ now w + Z.of_N dt →
  Forall (λ ev, ∀ cb' delay, ev = Render cb' delay → delay = delayDep h) post →
  calls (run (step w (Wait dt)) post) = calls w ++ [(deadline, currentCallback h)].
Proof.
  intros Hh Ht Hd Hpost.
  rewrite (step_wait_fires w h dt deadline Hh Ht Hd).
  set (w1 := {| now := now w + Z.of_N dt; hook := Some (fired h);
                calls := calls w ++ [(deadline, currentCallback h)] |}).
  change (calls w ++ [(deadline, currentCallback h)]) with (calls w1).
  assert (∃ h1, hook w1 = Some h1 ∧ timer h1 = None ∧ delayDep h1 = delayDep h)
    as Hw1 by (by eexists).
  clearbody w1. revert w1 Hw1.
  induction Hpost as [|ev post Hev Hpost IH]; intros w1 (h1 & Hh1 & Ht1 & Hd1); [done|].
  simpl. destruct ev as [cb' delay|dt'].
  - rewrite IH; [done|]. simpl. eexists. split; [done|].
    rewrite Hh1, (Hev cb' delay eq_refl), <- Hd1.
    by rewrite useTimeout_same_delay.
  - rewrite IH.
    + simpl. rewrite Hh1. unfold due. by rewrite Ht1.
    + simpl. rewrite Hh1. unfold due. rewrite Ht1. simpl. by exists h1.
Qed.
End TimeoutFurther.

Lemma useTimeout_cleared_calls_nothing_witness :
  Timeout.calls
    (Timeout.run
       (Timeout.run Timeout.start [Timeout.Render 1%nat (Timeout.DelayMs 1000);
                                   Timeout.Wait 400])
       [Timeout.Render 1%nat Timeout.DelayFalse; Timeout.Wait 5000;
        Timeout.Render 2%nat Timeout.DelayNull; Timeout.Wait 5000])
  = [].
Proof.
  apply (useTimeout_cleared_calls_nothing
           [Timeout.Render 1%nat (Timeout.DelayMs 1000); Timeout.Wait 400]
           [Timeout.Wait 5000; Timeout.Render 2%nat Timeout.DelayNull; Timeout.Wait 5000]
           1%nat Timeout.DelayFalse).
  - intros ms. discriminate.
  - repeat constructor; intros cb' ms; discriminate.
Defined.

Lemma useTimeout_fires_once_witness :
  Timeout.calls
    (Timeout.run
       (Timeout.step
          (Timeout.run Timeout.start [Timeout.Render 1%nat (Timeout.DelayMs 1000)])
          (Timeout.Wait 1000))
       [Timeout.Render 2%nat (Timeout.DelayMs 1000); Timeout.Wait 5000])
  = [(1000, 1%nat)].
Proof.
  apply (useTimeout_fires_once
           (Timeout.run Timeout.start [Timeout.Render 1%nat (Timeout.DelayMs 1000)])
           {| Timeout.currentCallback := 1%nat; Timeout.callbackDep := 1%nat;
              Timeout.delayDep := Timeout.DelayMs 1000; Timeout.timer := Some 1000 |}
           1000 1000%N
           [Timeout.Render 2%nat (Timeout.DelayMs 1000); Timeout.Wait 5000]).
  - reflexivity.
  - reflexivity.
  - simpl. lia.
  - repeat constructor; intros cb' delay; intros [= _ <-]; reflexivity.
Defined.

(** ** [usePromise]: changing the promise, promises settled beforehand *)
Section PromiseFurther.
Import Promise.
Context {T E : Type} `{EqDecision T, EqDecision E, !Callable T E}.

Implicit Types (w : World T E) (h : Hook T E) (o : Outcome T E)
  (r : nat * nat).

(** X3. A render with another promise than the one of the last commit
    still returns the state as that commit left it (on the first render,
    the initial state for the promise given).  Its effect then sets the
    state: the render that follows returns [LOADING] when a promise is
    given and [NOT_ASKED] when none is, and the hook watches the new
    promise.  A render with the same promise returns what the last one
    returned and changes nothing. *)
Theorem usePromise_reset_on_change (pre : list (Event T E)) (p : option nat) :
  let w := run start pre in
  let reset : RemoteData T E := match p with Some _ => LOADING | None => NOT_ASKED end in
  (promiseDep <$> hook w ≠ Some p →
   returned (render w p) = Some (default reset (returned w))
   ∧ returned (step w (Render p)) = Some reset
   ∧ watched (step w (Render p)) = p)
  ∧ (promiseDep <$> hook w = Some p →
     returned (render w p) = returned w ∧ step w (Render p) = w).
Proof.
  intros w reset. assert (linked w) as Hw by apply linked_run, linked_start.
  split.
  - intros Hne. split; [by apply render_returned_state|].
    rewrite step_render_changed; [done|].
    intros h Hh Hd. apply Hne. rewrite Hh. simpl. by rewrite Hd.
  - intros Hsame. destruct (hook w) as [h|] eqn:Hh; [|done].
    injection Hsame as <-. split; [|by apply step_render_same].
    rewrite render_returned_state by done.
    by destruct (linked_promise w Hw h Hh) as [_ ->].
Qed.

(** X4. A promise that had settled before it was given to the hook is not
    lost.  The render that is first given it returns the state of the last
    commit, and the render after its effect returns [LOADING]; once the
    reactions have run, the hook returns what [setData] makes of the result
    with the state [LOADING]: the result as it is, unless it is a
    function. *)
Theorem usePromise_delivers_settled (pre : list (Event T E)) (p : nat) o :
  let w := run start pre in
  promiseDep <$> hook w ≠ Some (Some p) →
  settled w !! p = Some o →
  returned (render w (Some p)) = Some (default LOADING (returned w))
  ∧ returned (step w (Render (Some p))) = Some LOADING
  ∧ returned (run w [Render (Some p); Flush]) = Some (setData (caught o) LOADING)
  ∧ ((∀ v, o = Resolved (Val v) → asFunction v = None) →
     returned (run w [Render (Some p); Flush])
     = Some match o with
            | Resolved value => value
            | Rejected error => Failure error
            end).
Proof.
  intros w Hne Hsettled.
  assert (linked w) as Hw by apply linked_run, linked_start.
  assert (∀ h, hook w = Some h → promiseDep h ≠ Some p) as Hne'.
  { intros h Hh Hd. apply Hne. rewrite Hh. simpl. by rewrite Hd. }
  assert (linked (step w (Render (Some p)))) as Hw1 by by apply linked_step.
  assert (returned (run w [Render (Some p); Flush])
          = Some (setData (caught o) LOADING)) as Hflush.
  { change (run w [Render (Some p); Flush])
      with (step (step w (Render (Some p))) Flush).
    rewrite step_render_changed in Hw1 |- * by done.
    erewrite step_flush; [|done|done]. simpl. f_equal.
    apply (foldl_react_caught _ _ _ _ (p, length (cleaned w)) o).
    - apply Hw1.
    - intros r [Hr| ->%list_elem_of_singleton]%elem_of_app Hrel; [|done].
      by rewrite cleaned_irrelevant in Hrel.
    - set_solver.
    - unfold relevant. simpl. by rewrite lookup_app_r, Nat.sub_diag by lia.
    - done. }
  split_and!; [by apply (render_returned_state w (Some p))
              |by rewrite step_render_changed|done|].
  intros Hplain. rewrite Hflush. f_equal. rewrite setData_plain.
  - by destruct o.
  - intros v Hv. apply Hplain. destruct o; simpl in Hv; [congruence|done].
Qed.

(** X5. Running the reactions is idempotent: a second run, with no promise
    settling in between, calls no callback and changes nothing. *)
Theorem usePromise_flush_idempotent (pre : list (Event T E)) :
  let w := step (run start pre) Flush in
  step w Flush = w.
Proof.
  intros w.
  assert (linked (run start pre)) as Hw0 by apply linked_run, linked_start.
  assert (linked w) as Hw by by apply linked_step.
  assert (∀ r, r ∈ reactions w → settled w !! r.1 = None) as Hwait.
  { unfold w. destruct (hook (run start pre)) as [h|] eqn:Hh.
    - rewrite (step_flush _ h Hw0 Hh). simpl.
      by intros r [? _]%list_elem_of_filter.
    - simpl. rewrite Hh. simpl. by intros r [? _]%list_elem_of_filter. }
  assert (filter (λ r, settled w !! r.1 = None) (reactions w) = reactions w) as Hfilter.
  { clear -Hwait. induction (reactions w) as [|r rs IH]; [done|].
    rewrite filter_cons, decide_True by (apply Hwait; set_solver).
    f_equal. apply IH. intros; apply Hwait; set_solver. }
  destruct (hook w) as [h|] eqn:Hh.
  - rewrite (step_flush w h Hw Hh). simpl. rewrite Hfilter.
    assert (foldl (react (flags w) (settled w)) (data h) (reactions w) = data h) as ->.
    { clear -Hwait. generalize (data h).
      induction (reactions w) as [|r rs IH]; intros state; [done|].
      simpl. rewrite react_unsettled by (apply Hwait; set_solver).
      apply IH. intros; apply Hwait; set_solver. }
    destruct (linked_promise w Hw h Hh) as [_ Hret].
    destruct w, h; simpl in *; congruence.
  - simpl. rewrite Hh, Hfilter. destruct w; simpl in *; congruence.
Qed.

(** X17. A result that is a function is not what the hook returns:
    [setData] takes it for a function of the state and calls it with the
    state, which is [LOADING] as long as the watched promise has not
    settled, and the hook returns what the call returns. *)
Theorem usePromise_calls_function_result
    (pre : list (Event T E)) (p : nat) (v : T) (f : RemoteData T E → RemoteData T E) :
  let w := run start pre in
  watched w = Some p → settled w !! p = None → asFunction v = Some f →
  returned w = Some LOADING
  ∧ returned (run w [Settle p (Resolved (Val v)); Flush]) = Some (f LOADING).
Proof.
  intros w Hwatched Hunsettled Hf.
  assert (linked w) as Hw by apply linked_run, linked_start.
  assert (returned w = Some LOADING) as Hret.
  { unfold watched in Hwatched. destruct (hook w) as [h|] eqn:Hh; [|done].
    simpl in Hwatched. destruct (linked_promise w Hw h Hh) as [_ ->].
    pose proof (linked_pending w Hw h Hh) as Hpend. rewrite Hwatched in Hpend.
    by rewrite Hpend. }
  split; [done|].
  rewrite (step_flush_settled w p _ LOADING) by done.
  unfold setData. simpl. by rewrite Hf.
Qed.
End PromiseFurther.

Lemma usePromise_reset_on_change_witness :
  let w : Promise.World nat nat :=
    Promise.run Promise.start
      [Promise.Render (Some 1%nat);
       Promise.Settle 1%nat (Promise.Resolved (Val 7%nat));
       Promise.Flush] in
  Promise.returned (Promise.render w (Some 2%nat)) = Some (Val 7%nat)
  ∧ Promise.returned (Promise.step w (Promise.Render (Some 2%nat))) = Some LOADING
  ∧ Promise.watched (Promise.step w (Promise.Render (Some 2%nat))) = Some 2%nat.
Proof.
  intros w.
  destruct (proj1 (usePromise_reset_on_change
                     [Promise.Render (Some 1%nat);
                      Promise.Settle 1%nat (Promise.Resolved (Val 7%nat : RemoteData nat nat));
                      Promise.Flush] (Some 2%nat)))
    as (Hfirst & Hnext & Hwatched).
  - vm_compute. congruence.
  - split_and!; [exact Hfirst | exact Hnext | exact Hwatched].
Defined.

Lemma usePromise_delivers_settled_witness :
  let w : Promise.World nat nat :=
    Promise.run Promise.start
      [Promise.Render None; Promise.Settle 1%nat (Promise.Rejected 3%nat)] in
  Promise.returned (Promise.render w (Some 1%nat)) = Some NOT_ASKED
  ∧ Promise.returned (Promise.step w (Promise.Render (Some 1%nat))) = Some LOADING
  ∧ Promise.returned (Promise.run w [Promise.Render (Some 1%nat); Promise.Flush])
    = Some (Failure 3%nat).
Proof.
  intros w.
  destruct (usePromise_delivers_settled
              [Promise.Render None;
               Promise.Settle 1%nat (Promise.Rejected 3%nat : Promise.Outcome nat nat)]
              1%nat (Promise.Rejected 3%nat))
    as (Hfirst & Hnext & _ & Hplain).
  - vm_compute. congruence.
  - reflexivity.
  - split_and!; [exact Hfirst | exact Hnext | apply Hplain; discriminate].
Defined.

Lemma usePromise_calls_function_result_witness :
  let w : Promise.World Item nat :=
    Promise.run Promise.start [Promise.Render (Some 1%nat)] in
  Promise.returned w = Some LOADING
  ∧ Promise.returned
      (Promise.run w
         [Promise.Settle 1%nat (Promise.Resolved (Val (Thunk 5%nat))); Promise.Flush])
    = Some (Val (Plain 5%nat)).
Proof.
  intros w.
  apply (usePromise_calls_function_result
           [Promise.Render (Some 1%nat)] 1%nat (Thunk 5%nat) (λ _, Val (Plain 5%nat)));
    reflexivity.
Defined.

(** ** [RemoteSuspense]: the loading view does appear *)
Section SuspenseFurther.
Import Timeout Suspense.
Context {T E X : Type}.

(** X6. Once the data has been [LOADING] without interruption for longer
    than the loading timeout, the component renders the loading fallback
    ([null] when none is given), however often it was rendered with
    [LOADING] in the meantime: such renders do not postpone the view. *)
Theorem RemoteSuspense_shows_loading_after_timeout
    (cfg : Config T E X) (evs : list (Event T E)) (t : Z) :
  pendingFor evs = Some t →
  Z.max 0 (default defaultLoadingTimeout (loadingTimeout cfg)) < t →
  rendered (run cfg start evs)
  = Some (RFragment [default RNull (loadingFallback cfg)])
  ∧ showLoading <$> hook (run cfg start evs) = Some true.
Proof.
  intros Ht Hlt. pose proof (gated_run cfg evs) as Hw.
  unfold gated in Hw. rewrite Ht in Hw.
  destruct (hook (run cfg start evs)) as [h|], (data (run cfg start evs)) as [d|];
    try done.
  destruct Hw as (Hview & Hload & _ & _ & Htimer).
  destruct d; try done.
  pose proof (timerDelay_le (loadingThreshold cfg)) as Hdelay.
  destruct (timer (timeout h)).
  - unfold loadingThreshold in Htimer, Hdelay. lia.
  - destruct Htimer as [Hflag _]. rewrite Hview. simpl. by rewrite Hflag.
Qed.
End SuspenseFurther.

Lemma RemoteSuspense_shows_loading_after_timeout_witness :
  Suspense.rendered
    (Suspense.run panel Suspense.start
       [Suspense.Render LOADING; Suspense.Wait 100; Suspense.Render LOADING;
        Suspense.Wait 51])
  = Some (Suspense.RFragment [default Suspense.RNull (Suspense.loadingFallback panel)])
  ∧ Suspense.showLoading
      <$> Suspense.hook
            (Suspense.run panel Suspense.start
               [Suspense.Render LOADING; Suspense.Wait 100; Suspense.Render LOADING;
                Suspense.Wait 51])
    = Some true.
Proof.
  apply (RemoteSuspense_shows_loading_after_timeout panel
           [Suspense.Render LOADING; Suspense.Wait 100; Suspense.Render LOADING;
            Suspense.Wait 51] 151).
  - reflexivity.
  - simpl. lia.
Defined.

(** ** [useRemoteLatest]: what the hook can return *)
Section ReconcilerFurther.
Context {T E : Type}.

Implicit Types (slot : option (RemoteData T E)) (inputs : list (RemoteData T E)).

Lemma renders_length slot inputs :
  length (RemoteLatest.renders slot inputs).1 = length inputs.
Proof.
  revert slot. induction inputs as [|d rest IH]; intros slot; [done|].
  simpl. specialize (IH (Some (RemoteLatest.useRemoteLatest slot d))).
  destruct (RemoteLatest.renders _ rest). simpl in *. by rewrite IH.
Qed.

(** X7. Until a first ready value has been given, the hook is transparent:
    from its first render on, it returns each input as it is, failures and
    [NOT_ASKED] after [LOADING] included. *)
Theorem useRemoteLatest_transparent_until_ready inputs :
  Forall (λ d, isReady d = false) inputs →
  (RemoteLatest.renders None inputs).1 = inputs.
Proof.
  intros Hinputs.
  assert (∀ slot, (∀ s, slot = Some s → isReady s = false) →
                  (RemoteLatest.renders slot inputs).1 = inputs) as Hgen.
  { induction Hinputs as [|d rest Hd Hrest IH]; intros slot Hslot; [done|].
    simpl. rewrite (useRemoteLatest_nothing_kept slot d Hslot).
    specialize (IH (Some d)). destruct (RemoteLatest.renders (Some d) rest).
    simpl in *. rewrite IH; [done|]. by intros s [= <-]. }
  by apply Hgen.
Qed.

(** X8. The hook returns one output for each input, and never a value of
    its own making: each output is the input of that render or, when that
    input is [NOT_ASKED] or [LOADING], a ready value given by an earlier
    render. *)
Theorem useRemoteLatest_returns_inputs inputs :
  let outputs := (RemoteLatest.renders None inputs).1 in
  length outputs = length inputs
  ∧ ∀ (i : nat) d out,
      inputs !! i = Some d → outputs !! i = Some out →
      out = d
      ∨ (isReady out = true ∧ (d = NOT_ASKED ∨ d = LOADING)
         ∧ ∃ j, (j < i)%nat ∧ inputs !! j = Some out).
Proof.
  intros outputs. split; [apply renders_length|].
  assert (∀ slot (i : nat) d out,
             inputs !! i = Some d →
             (RemoteLatest.renders slot inputs).1 !! i = Some out →
             out = d
             ∨ (isReady out = true ∧ (d = NOT_ASKED ∨ d = LOADING)
                ∧ (slot = Some out ∨ ∃ j, (j < i)%nat ∧ inputs !! j = Some out)))
    as Hgen.
  { clear outputs. induction inputs as [|d0 rest IH]; intros slot i d out; [done|].
    simpl. specialize (IH (Some (RemoteLatest.useRemoteLatest slot d0))).
    destruct (RemoteLatest.renders _ rest) as [outs final]. simpl in *.
    destruct i as [|i]; simpl.
    - intros [= ->] [= <-].
      destruct (isSettled d) eqn:Hd.
      + left. by apply useRemoteLatest_settled.
      + destruct slot as [s|].
        * destruct (isReady s) eqn:Hs.
          -- right. rewrite useRemoteLatest_stale by done.
             split_and!; [done|by apply unsettled_inv|by left].
          -- left. apply useRemoteLatest_nothing_kept. by intros ? [= <-].
        * left. by apply useRemoteLatest_nothing_kept.
    - intros Hd Hout.
      destruct (IH i d out Hd Hout) as [->|(Hr & Hu & [Hslot|(j & Hj & Hin)])];
        [by left| |].
      + right. split_and!; [done|done|].
        injection Hslot as Hslot.
        destruct (isSettled d0) eqn:Hd0.
        * right. exists 0%nat. split; [lia|].
          simpl. by rewrite <- Hslot, useRemoteLatest_settled.
        * destruct slot as [s|].
          -- destruct (isReady s) eqn:Hs.
             ++ left. by rewrite <- Hslot, useRemoteLatest_stale.
             ++ right. exists 0%nat. split; [lia|]. simpl.
                rewrite <- Hslot, useRemoteLatest_nothing_kept; [done|].
                by intros ? [= <-].
          -- right. exists 0%nat. split; [lia|]. simpl.
             by rewrite <- Hslot, useRemoteLatest_nothing_kept.
      + right. split_and!; [done|done|]. right. exists (S j). split; [lia|done]. }
  intros i d out Hd Hout.
  destruct (Hgen None i d out Hd Hout) as [->|(Hr & Hu & [Hslot|Hj])];
    [by left|done|by right].
Qed.
End ReconcilerFurther.

Lemma useRemoteLatest_transparent_until_ready_witness :
  (RemoteLatest.renders None
     [NOT_ASKED; LOADING; Failure 1%nat; LOADING : RemoteData nat nat]).1
  = [NOT_ASKED; LOADING; Failure 1%nat; LOADING].
Proof.
  apply (useRemoteLatest_transparent_until_ready
           [NOT_ASKED; LOADING; Failure 1%nat; LOADING : RemoteData nat nat]).
  repeat constructor.
Defined.

Lemma useRemoteLatest_returns_inputs_witness :
  (Val 1%nat : RemoteData nat nat) = LOADING
  ∨ (isReady (Val 1%nat : RemoteData nat nat) = true
     ∧ ((LOADING : RemoteData nat nat) = NOT_ASKED
        ∨ (LOADING : RemoteData nat nat) = LOADING)
     ∧ ∃ j, (j < 1)%nat
            ∧ [Val 1%nat; LOADING : RemoteData nat nat] !! j = Some (Val 1%nat)).
Proof.
  apply (proj2 (useRemoteLatest_returns_inputs
                  [Val 1%nat; LOADING : RemoteData nat nat]) 1%nat);
    reflexivity.
Defined.

(** ** The indicator and the producers of one registry *)
Section IndicatorFurther.
Import Timeout ActivityIndicator ActivityHook ActivityIndicatorView.

(** X9. Along every history of a registry, what the component renders
    after its children follows the set of tokens: an indicator that is a
    node is rendered exactly when the set is not empty ([false] is rendered
    otherwise), an indicator that is a function is always called, with
    whether the set is not empty, and [useActivityIndicatorStatus] returns
    whether the set is not empty. *)
Theorem ActivityIndicator_shows_indicator {X : Type}
    (ops : list Op) (children node : Suspense.ReactNode X)
    (f : bool → Suspense.ReactNode X) :
  let r := registry (run start ops) in
  let active := bool_decide (registered r ≠ ∅) in
  ActivityIndicator r (Some (IndicatorNode node)) children
  = [ChildNode children;
     if active then ChildNode node else ChildNode (Suspense.RBool false)]
  ∧ ActivityIndicator r (Some (SelfHidingIndicator f)) children
    = [ChildNode children; ChildNode (f active)]
  ∧ useActivityIndicatorStatus (Some r) = active.
Proof.
  intros r active.
  assert (isIndicating r = active) as Hactive.
  { apply aggregate_of_sound, sound_run, sound_start. }
  unfold ActivityIndicator, useActivityIndicatorStatus. rewrite Hactive.
  split_and!; [|done|done].
  simpl. destruct node; by destruct active.
Qed.

(** X10. One render of [useActivityIndicator] on a registry that other
    producers use too: the hook adds or removes no token but its own, the
    aggregate boolean still agrees with the set of tokens afterwards, and
    it stays true as long as a token of another producer is registered. *)
Theorem useActivityIndicator_touches_own_token
    (now : Z) (uid : N) (reg : Registry) (slot : option Hook)
    (hasActivity : bool) (timeoutBeforeShow : option Z) :
  let own (s : option Hook) : gset N :=
    match s ≫= cleanup with Some id => {[id]} | None => ∅ end in
  let r := useActivityIndicator now uid reg slot hasActivity timeoutBeforeShow in
  consistent reg →
  (∀ id, id ∈ registered reg → (id < uid)%N) →
  registered r.1.2 ∖ own (Some r.2) = registered reg ∖ own slot
  ∧ consistent r.1.2
  ∧ (∀ id, id ∈ registered r.1.2 → (id < r.1.1)%N)
  ∧ (registered reg ∖ own slot ≠ ∅ → isIndicating r.1.2 = true).
Proof.
  intros own r Hc Hfresh.
  assert (registered r.1.2 ∖ own (Some r.2) = registered reg ∖ own slot
          ∧ consistent r.1.2
          ∧ (∀ id, id ∈ registered r.1.2 → (id < r.1.1)%N)) as (Hown & Hc' & Hfresh').
  { unfold r, own, useActivityIndicator.
    set (show' := if negb hasActivity && useState (show <$> slot) false
                  then false else useState (show <$> slot) false).
    destruct (depsChanged (showDep <$> slot) show'); [|by simpl].
    set (reg1 := match slot ≫= cleanup with
                 | Some id => deregister id reg
                 | None => reg
                 end).
    assert (registered reg1 = registered reg ∖ own slot ∧ consistent reg1) as [Hr1 Hc1].
    { unfold reg1, own. destruct (slot ≫= cleanup) as [id|].
      - split; [by rewrite deregister_spec|by apply consistent_deregister].
      - split; [set_solver|done]. }
    destruct show'.
    - pose proof (consistent_register uid reg1 Hc1) as Hc2.
      rewrite register_spec in Hc2 |- *. simpl in *. rewrite Hr1 in Hc2 |- *.
      split_and!; [|done|].
      + assert (uid ∉ registered reg) as Hnew.
        { intros Hin. specialize (Hfresh uid Hin). lia. }
        set_solver.
      + intros id [->%elem_of_singleton|Hin]%elem_of_union; [lia|].
        assert (id ∈ registered reg) as Hin' by set_solver.
        specialize (Hfresh id Hin'). lia.
    - simpl. rewrite Hr1. split_and!; [set_solver|done|].
      intros id Hin. apply Hfresh. set_solver. }
  split_and!; [done|done|done|].
  intros Hothers. apply Hc'. rewrite <- Hown in Hothers. set_solver.
Qed.
End IndicatorFurther.

Lemma useActivityIndicator_touches_own_token_witness :
  let reg := {| ActivityIndicator.registered := {[0%N]};
                ActivityIndicator.isIndicating := true |} in
  ActivityIndicator.isIndicating
    (ActivityHook.useActivityIndicator 0 1%N reg None false None).1.2
  = true.
Proof.
  intros reg.
  apply (useActivityIndicator_touches_own_token 0 1%N reg None false None).
  - split; [intros _; vm_compute; discriminate | reflexivity].
  - intros id Hid. unfold reg in Hid. simpl in Hid.
    apply elem_of_singleton in Hid as ->. reflexivity.
  - simpl. vm_compute. discriminate.
Defined.

(** ** [useAsyncOperation] *)
Section AsyncOperationFacts.
Import AsyncOperation.
Context {T E : Type} `{EqDecision T, EqDecision E, !Callable T E}.
Context {Op D : Type} `{EqDecision Op, EqDecision D}.

Variable invoke : Op → nat → nat.

Implicit Types (w : World T E Op D) (h : Hook Op D) (op : option Op) (deps : D).

(** The first render. *)
Lemma useAsyncOperation_mount next ab cs op deps :
  useAsyncOperation invoke next ab cs None op deps
  = Returned
      (S next, ab,
       cs ++ match op with Some o => [(o, next)] | None => [] end,
       {| runner := orNever op; runnerDeps := deps;
          controller := next; controllerDeps := orNever op;
          promise := (λ o, invoke o next) <$> op;
          promiseDeps := (orNever op, next);
          abortDeps := (next, (λ o, invoke o next) <$> op) |}).
Proof.
  unfold useAsyncOperation. simpl. destruct op; simpl; [done|].
  by rewrite app_nil_r.
Qed.

(** A render that keeps the memoized callback: the dependencies are the
    same, or they changed and [op || never] is the function it was. *)
Lemma useAsyncOperation_kept next ab cs h op deps :
  controllerDeps h = runner h →
  promiseDeps h = (runner h, controller h) →
  abortDeps h = (controller h, promise h) →
  runnerDeps h = deps ∨ orNever op = runner h →
  useAsyncOperation invoke next ab cs (Some h) op deps
  = Returned
      (next, ab, cs,
       {| runner := runner h; runnerDeps := deps;
          controller := controller h; controllerDeps := runner h;
          promise := promise h; promiseDeps := (runner h, controller h);
          abortDeps := (controller h, promise h) |}).
Proof.
  intros Hc Hp Ha Hkept. unfold useAsyncOperation. simpl fmap. simpl mbind.
  assert ((if depsChanged (Some (runnerDeps h)) deps then orNever op
           else default RunNever (Some (runner h))) = runner h) as ->.
  { simpl. case_bool_decide as Hd; [|done].
    destruct Hkept as [Hkept|Hkept]; [by destruct Hd|done]. }
  rewrite Hc, depsChanged_same. simpl default.
  rewrite Hp, depsChanged_same. rewrite Ha, depsChanged_same. done.
Qed.

(** A render that makes a new callback. *)
Lemma useAsyncOperation_restart next ab cs h op deps :
  controllerDeps h = runner h →
  promiseDeps h = (runner h, controller h) →
  abortDeps h = (controller h, promise h) →
  (controller h < next)%nat →
  runnerDeps h ≠ deps → orNever op ≠ runner h →
  useAsyncOperation invoke next ab cs (Some h) op deps
  = Returned
      (S next, {[controller h]} ∪ ab,
       cs ++ match op with Some o => [(o, next)] | None => [] end,
       {| runner := orNever op; runnerDeps := deps;
          controller := next; controllerDeps := orNever op;
          promise := (λ o, invoke o next) <$> op;
          promiseDeps := (orNever op, next);
          abortDeps := (next, (λ o, invoke o next) <$> op) |}).
Proof.
  intros Hc Hp Ha Hlt Hdeps Hrunner. unfold useAsyncOperation.
  simpl fmap. simpl mbind.
  rewrite (depsChanged_other _ _ Hdeps).
  rewrite Hc, (depsChanged_other (runner h) (orNever op)) by done.
  rewrite Hp, (depsChanged_other (runner h, controller h) (orNever op, next))
    by congruence.
  rewrite Ha. destruct op as [o|]; simpl.
  - rewrite bool_decide_eq_true_2 by (intros [= ? ?]; lia). done.
  - rewrite bool_decide_eq_true_2 by (intros [= ? ?]; lia).
    by rewrite app_nil_r.
Qed.

Lemma promise_run_snoc (pw : Promise.World T E) pevs pev :
  Promise.run pw (pevs ++ [pev]) = Promise.step (Promise.run pw pevs) pev.
Proof. unfold Promise.run. by rewrite foldl_app. Qed.

Lemma promiseDep_step (pw : Promise.World T E) pev :
  Promise.linked pw →
  Promise.promiseDep <$> Promise.hook (Promise.step pw pev)
  = match pev with
    | Promise.Render p => Some p
    | _ => Promise.promiseDep <$> Promise.hook pw
    end.
Proof.
  intros Hpw. destruct pev as [p|p o|].
  - destruct (Promise.hook pw) as [ph|] eqn:Hph.
    + destruct (decide (Promise.promiseDep ph = p)) as [<-|Hne].
      * rewrite step_render_same by done. by rewrite Hph.
      * rewrite step_render_changed; [done|]. intros ph'. rewrite Hph. congruence.
    + rewrite step_render_changed; [done|]. intros ph'. by rewrite Hph.
  - done.
  - destruct (Promise.hook pw) as [ph|] eqn:Hph.
    + by rewrite (step_flush pw ph Hpw Hph).
    + simpl. by rewrite Hph.
Qed.

Lemma tied_linked w : tied w → Promise.linked (inner w).
Proof. intros [[pevs ->] _ _ _ _ _ _]. apply linked_run, linked_start. Qed.

(** A render that keeps the memoized callback changes nothing but the
    dependencies it records. *)
Lemma step_render_kept w h op deps :
  tied w → hook w = Some h →
  runnerDeps h = deps ∨ orNever op = runner h →
  step invoke w (Render op deps)
  = Some {| hook := Some {| runner := runner h; runnerDeps := deps;
                            controller := controller h;
                            controllerDeps := controllerDeps h;
                            promise := promise h; promiseDeps := promiseDeps h;
                            abortDeps := abortDeps h |};
            nextController := nextController w; aborted := aborted w;
            calls := calls w; inner := inner w |}.
Proof.
  intros Hw Hh Hkept.
  destruct (tied_deps w Hw h Hh) as (Hc & Hp & Ha & Hinner & _).
  assert (Promise.step (inner w) (Promise.Render (promise h)) = inner w) as Hsame.
  { destruct (Promise.hook (inner w)) as [ph|] eqn:Hph; [|done].
    injection Hinner as <-. apply step_render_same; [by apply tied_linked|done]. }
  unfold step. rewrite Hh.
  rewrite (useAsyncOperation_kept _ _ _ h op deps Hc Hp Ha Hkept).
  cbn -[Promise.step]. by rewrite Hsame, Hc, Hp, Ha.
Qed.

(** A render that makes a new callback: the controller of the last
    operation is aborted, a new controller is made, and the operation, when
    there is one, is invoked with its signal. *)
Lemma step_render_restart w h op deps :
  tied w → hook w = Some h →
  runnerDeps h ≠ deps → orNever op ≠ runner h →
  step invoke w (Render op deps)
  = Some {| hook := Some {| runner := orNever op; runnerDeps := deps;
                            controller := nextController w;
                            controllerDeps := orNever op;
                            promise := (λ o, invoke o (nextController w)) <$> op;
                            promiseDeps := (orNever op, nextController w);
                            abortDeps :=
                              (nextController w,
                               (λ o, invoke o (nextController w)) <$> op) |};
            nextController := S (nextController w);
            aborted := {[controller h]} ∪ aborted w;
            calls := calls w
                     ++ match op with
                        | Some o => [(o, nextController w)]
                        | None => []
                        end;
            inner := Promise.step (inner w)
                       (Promise.Render ((λ o, invoke o (nextController w)) <$> op)) |}.
Proof.
  intros Hw Hh Hd Hr.
  destruct (tied_deps w Hw h Hh) as (Hc & Hp & Ha & _ & _).
  destruct (tied_current w Hw h Hh) as [Hlt _].
  unfold step. rewrite Hh.
  by rewrite (useAsyncOperation_restart _ _ _ h op deps Hc Hp Ha Hlt Hd Hr).
Qed.

(** The first render. *)
Lemma step_render_mount w op deps :
  tied w → hook w = None →
  step invoke w (Render op deps)
  = Some {| hook := Some {| runner := orNever op; runnerDeps := deps;
                            controller := 0%nat; controllerDeps := orNever op;
                            promise := (λ o, invoke o 0%nat) <$> op;
                            promiseDeps := (orNever op, 0%nat);
                            abortDeps := (0%nat, (λ o, invoke o 0%nat) <$> op) |};
            nextController := 1%nat;
            aborted := ∅;
            calls := match op with Some o => [(o, 0%nat)] | None => [] end;
            inner := Promise.step (inner w)
                       (Promise.Render ((λ o, invoke o 0%nat) <$> op)) |}.
Proof.
  intros Hw Hh. destruct (tied_unmounted w Hw Hh) as (Hn & Ha & Hcs & Hin).
  unfold step. rewrite Hh, useAsyncOperation_mount.
  cbn -[Promise.step]. rewrite Hcs. simpl app. by rewrite Hn, Ha.
Qed.

Lemma tied_start : tied (start : World T E Op D).
Proof.
  split; simpl; try done.
  - by exists [].
  - lia.
  - split; [constructor|]. intros o c []%elem_of_nil.
Qed.

Lemma tied_step w ev w' : tied w → step invoke w ev = Some w' → tied w'.
Proof.
  intros Hw. pose proof (tied_linked w Hw) as Hlinked.
  pose proof Hw as [[pevs Hinner] Hun Hdeps Hcur Hab Hmade [Hnd Hcalls]].
  assert (∀ pev, ∃ pevs', Promise.step (inner w) pev
                          = Promise.run Promise.start pevs') as Hhist.
  { intros pev. exists (pevs ++ [pev]). by rewrite promise_run_snoc, Hinner. }
  assert (∀ pev, Promise.promiseDep <$> Promise.hook (Promise.step (inner w) pev)
                 = match pev with
                   | Promise.Render p => Some p
                   | _ => Promise.promiseDep <$> Promise.hook (inner w)
                   end) as Hpdep.
  { intros pev. by apply promiseDep_step. }
  destruct ev as [op deps|p o|].
  - (* a render *)
    destruct (hook w) as [h|] eqn:Hh.
    + destruct (Hdeps h eq_refl) as (Hc & Hp & Ha & Hdep & Hnever).
      destruct (Hcur h eq_refl) as [Hlt Hnot].
      destruct (decide (runnerDeps h = deps ∨ orNever op = runner h)) as [Hkept|Hnew].
      * rewrite (step_render_kept w h op deps Hw Hh Hkept).
        intros Heq. apply (inj Some) in Heq. subst w'. split; cbn [hook nextController aborted calls inner].
        -- by exists pevs.
        -- done.
        -- intros h' Heq. apply (inj Some) in Heq. subst h'. cbn. done.
        -- intros h' Heq. apply (inj Some) in Heq. subst h'. cbn. done.
        -- intros c Hc' Hother. apply Hab; [done|].
           intros h' Heq. apply (inj Some) in Heq. subst h'. by apply (Hother _ eq_refl).
        -- done.
        -- done.
      * assert (runnerDeps h ≠ deps ∧ orNever op ≠ runner h) as [Hd Hr].
        { split; intros ?; apply Hnew; auto. }
        rewrite (step_render_restart w h op deps Hw Hh Hd Hr).
        intros Heq. apply (inj Some) in Heq. subst w'.
        split; cbn [hook nextController aborted calls inner].
        -- apply Hhist.
        -- done.
        -- intros h' Heq. apply (inj Some) in Heq. subst h'.
           cbn [runner controller controllerDeps promise promiseDeps abortDeps].
           split_and!; [done|done|done|apply Hpdep|].
           by destruct op.
        -- intros h' Heq. apply (inj Some) in Heq. subst h'. cbn [controller].
           split; [lia|].
           intros [Heq%elem_of_singleton|Hin]%elem_of_union; [lia|].
           specialize (Hmade _ Hin). lia.
        -- intros c Hc' Hother. destruct (decide (c = controller h)) as [->|Hne].
           ++ set_solver.
           ++ apply elem_of_union. right. apply Hab.
              ** specialize (Hother _ eq_refl). cbn [controller] in Hother. lia.
              ** intros h' Heq. apply (inj Some) in Heq. by subst h'.
        -- intros c [->%elem_of_singleton|Hin]%elem_of_union; [lia|].
           specialize (Hmade _ Hin). lia.
        -- split.
           ++ rewrite fmap_app. apply NoDup_app. split_and!; [done| |].
              ** intros c Hin Hin'.
                 apply list_elem_of_fmap in Hin as ([o' c'] & -> & Hin).
                 specialize (Hcalls _ _ Hin).
                 destruct op; simpl in Hin'; [|by apply elem_of_nil in Hin'].
                 apply list_elem_of_singleton in Hin'. simpl in *. lia.
              ** destruct op; simpl; [apply NoDup_singleton|constructor].
           ++ intros o' c' [Hin|Hin]%elem_of_app.
              ** specialize (Hcalls _ _ Hin). lia.
              ** destruct op; [|by apply elem_of_nil in Hin].
                 apply list_elem_of_singleton in Hin as [= -> ->]. lia.
    + rewrite (step_render_mount w op deps Hw Hh).
      intros Heq. apply (inj Some) in Heq. subst w'.
      split; cbn [hook nextController aborted calls inner].
      * apply Hhist.
      * done.
      * intros h' Heq. apply (inj Some) in Heq. subst h'.
        cbn [runner controller controllerDeps promise promiseDeps abortDeps].
        split_and!; [done|done|done|apply Hpdep|by destruct op].
      * intros h' Heq. apply (inj Some) in Heq. subst h'. cbn [controller].
        split; [lia|set_solver].
      * intros c Hc' Hother. specialize (Hother _ eq_refl). cbn [controller] in Hother. lia.
      * set_solver.
      * split.
        -- destruct op; simpl; [apply NoDup_singleton|constructor].
        -- intros o' c' Hin'. destruct op; [|by apply elem_of_nil in Hin'].
           apply list_elem_of_singleton in Hin' as [= -> ->]. lia.
  - (* a promise settles *)
    unfold step. intros Heq. apply (inj Some) in Heq. subst w'.
    split; cbn [hook nextController aborted calls inner]; try done.
    all: try apply Hhist.
    all: intros h Hh; destruct (Hdeps h Hh) as (? & ? & ? & ? & ?);
      split_and!; try done.
  - (* the reactions run *)
    unfold step. intros Heq. apply (inj Some) in Heq. subst w'.
    split; cbn [hook nextController aborted calls inner]; try done.
    + intros Hnone. destruct (Hun Hnone) as (? & ? & ? & Hnohook).
      split_and!; try done. simpl. by rewrite Hnohook.
    + intros h Hh. destruct (Hdeps h Hh) as (? & ? & ? & ? & ?).
      split_and!; try done. by rewrite Hpdep.
Qed.

Lemma tied_run w evs :
  tied w →
  ∃ w', run invoke w evs = Some w' ∧ tied w'.
Proof.
  revert w. induction evs as [|ev evs IH]; intros w Hw; [by exists w|].
  assert (∃ w1, step invoke w ev = Some w1) as [w1 Hstep].
  { destruct ev as [op deps|p o|]; [|by eexists|by eexists].
    destruct (hook w) as [h|] eqn:Hh.
    - destruct (decide (runnerDeps h = deps ∨ orNever op = runner h)) as [Hkept|Hnew].
      + rewrite (step_render_kept w h op deps Hw Hh Hkept). by eexists.
      + rewrite (step_render_restart w h op deps Hw Hh); [by eexists| |];
          intros ?; apply Hnew; auto.
    - rewrite (step_render_mount w op deps Hw Hh). by eexists. }
  simpl. rewrite Hstep. apply IH. by eapply tied_step.
Qed.
End AsyncOperationFacts.

Section AsyncOperationClaims.
Import AsyncOperation.
Context {T E : Type} `{EqDecision T, EqDecision E, !Callable T E}.
Context {Op D : Type} `{EqDecision Op, EqDecision D}.

Variable invoke : Op → nat → nat.

Implicit Types (w : World T E Op D) (h : Hook Op D) (op : option Op) (deps : D).

(** X11. No render of the hook calls [never]: along every history, with
    whatever operations and dependencies, and with [op] undefined in some
    renders and defined in others, the invariant violation is not
    thrown. *)
Theorem useAsyncOperation_never_throws (evs : list (Event T E Op D)) :
  is_Some (run invoke (start : World T E Op D) evs).
Proof.
  destruct (tied_run invoke start evs tied_start) as (w & -> & _). by eexists.
Qed.

(** X12. A render restarts nothing when the dependencies are those of the
    last render, whatever [op] is given (another function, or none), and
    when [op || never] is the function it was, whatever the dependencies
    are: no operation is invoked, no signal is raised, no controller is
    made, and the hook goes on watching the promise it watched. *)
Theorem useAsyncOperation_keeps_operation
    (pre : list (Event T E Op D)) w h op deps :
  run invoke start pre = Some w → hook w = Some h →
  runnerDeps h = deps ∨ orNever op = runner h →
  ∃ w', step invoke w (Render op deps) = Some w'
        ∧ calls w' = calls w ∧ aborted w' = aborted w
        ∧ nextController w' = nextController w
        ∧ inner w' = inner w
        ∧ (controller <$> hook w') = Some (controller h)
        ∧ (promise <$> hook w') = Some (promise h).
Proof.
  intros Hpre Hh Hkept.
  destruct (tied_run invoke start pre tied_start) as (w0 & Hrun & Hw).
  rewrite Hpre in Hrun. injection Hrun as <-.
  rewrite (step_render_kept invoke w h op deps Hw Hh Hkept).
  eexists. split; [done|]. done.
Qed.

(** X13. A render with other dependencies and another function than the
    last one restarts: the signal of the controller of the last render is
    raised, the new operation, when one is given, is invoked once, with
    the signal of a new controller, which is not raised, and the hook
    watches the promise it returned (none when [op] is undefined).  That
    render still returns what the hook returned before; when the promise
    is not the one it watched before, the render that follows the effect
    returns [LOADING] (or [NOT_ASKED]). *)
Theorem useAsyncOperation_restarts
    (pre : list (Event T E Op D)) w h op deps :
  run invoke start pre = Some w → hook w = Some h →
  runnerDeps h ≠ deps → orNever op ≠ runner h →
  let made := (λ o, invoke o (nextController w)) <$> op in
  ∃ w', step invoke w (Render op deps) = Some w'
        ∧ calls w'
          = calls w ++ match op with
                       | Some o => [(o, nextController w)]
                       | None => []
                       end
        ∧ controller h ∈ aborted w'
        ∧ (controller <$> hook w') = Some (nextController w)
        ∧ (nextController w ∉ aborted w')
        ∧ Promise.watched (inner w') = made
        ∧ Promise.returned (Promise.render (inner w) made)
          = Promise.returned (inner w)
        ∧ (promise h ≠ made →
           Promise.returned (inner w')
           = Some (match made with Some _ => LOADING | None => NOT_ASKED end)).
Proof.
  intros Hpre Hh Hd Hr made.
  destruct (tied_run invoke start pre tied_start) as (w0 & Hrun & Hw).
  rewrite Hpre in Hrun. injection Hrun as <-.
  pose proof (tied_linked w Hw) as Hlinked.
  destruct (tied_deps w Hw h Hh) as (_ & _ & _ & Hdep & _).
  destruct (tied_current w Hw h Hh) as [Hlt _].
  rewrite (step_render_restart invoke w h op deps Hw Hh Hd Hr).
  eexists. split; [done|]. cbn [hook nextController aborted calls inner].
  fold made. split_and!.
  - done.
  - set_solver.
  - done.
  - intros [Heq%elem_of_singleton|Hin]%elem_of_union; [lia|].
    pose proof (tied_made w Hw _ Hin). lia.
  - pose proof (promiseDep_step (inner w) (Promise.Render made) Hlinked) as Hp.
    unfold Promise.watched.
    destruct (Promise.hook (Promise.step (inner w) (Promise.Render made))); [|done].
    simpl in *. by injection Hp.
  - rewrite render_returned_state by done.
    destruct (Promise.hook (inner w)) as [ph|] eqn:Hph; [|done].
    by destruct (Promise.linked_promise _ Hlinked ph Hph) as [_ ->].
  - intros Hne. rewrite step_render_changed; [done|].
    intros ph Hph Hsame. rewrite Hph in Hdep. simpl in Hdep. congruence.
Qed.

(** X14. The signals along every history: the signal given to the
    operation of the last render is not raised; the signal given to every
    other operation that was invoked has been raised; and no signal was
    given to two invocations. *)
Theorem useAsyncOperation_abort_discipline (evs : list (Event T E Op D)) w :
  run invoke start evs = Some w →
  (∀ h, hook w = Some h → controller h ∉ aborted w)
  ∧ (∀ o c, (o, c) ∈ calls w →
            c ∈ aborted w ∨ ∃ h, hook w = Some h ∧ c = controller h)
  ∧ NoDup (calls w).*2.
Proof.
  intros Hevs.
  destruct (tied_run invoke start evs tied_start) as (w0 & Hrun & Hw).
  rewrite Hevs in Hrun. injection Hrun as <-.
  split_and!.
  - intros h Hh. by apply (tied_current w Hw h Hh).
  - intros o c Hin. destruct (tied_calls w Hw) as [_ Hcalls].
    specialize (Hcalls o c Hin).
    destruct (hook w) as [h|] eqn:Hh.
    + destruct (decide (c = controller h)) as [->|Hne]; [right; by eexists|].
      left. apply (tied_aborted w Hw); [done|]. intros h' Hh'. congruence.
    + left. apply (tied_aborted w Hw); [done|]. intros h' Hh'. congruence.
  - apply (tied_calls w Hw).
Qed.

(** X15. The result of an operation that was superseded is dropped whether
    or not the operation heeds its signal: when a promise that the hook
    does not watch settles, the hook returns, once the reactions have run,
    what it returns without that settlement. *)
Theorem useAsyncOperation_drops_superseded
    (pre : list (Event T E Op D)) w (p : nat) (o : Promise.Outcome T E) :
  run invoke start pre = Some w →
  Promise.watched (inner w) ≠ Some p →
  ∃ w1 w2, run invoke w [Settle p o; Flush] = Some w1
           ∧ run invoke w [Flush] = Some w2
           ∧ Promise.returned (inner w1) = Promise.returned (inner w2)
           ∧ hook w1 = hook w ∧ aborted w1 = aborted w.
Proof.
  intros Hpre Hwatched.
  destruct (tied_run invoke start pre tied_start) as (w0 & Hrun & Hw).
  rewrite Hpre in Hrun. injection Hrun as <-.
  pose proof (tied_linked w Hw) as Hlinked.
  do 2 eexists. split_and!; [done|done| |done|done].
  cbn -[Promise.step].
  apply (Promise.agree_returned p), agree_step; [done|].
  by apply agree_settle.
Qed.
End AsyncOperationClaims.

(** An operation that returns the promise [10 * o + c] for the signal of
    the controller [c]. *)
Lemma useAsyncOperation_keeps_operation_witness :
  let invoke (o c : nat) : nat := (10 * o + c)%nat in
  let w : AsyncOperation.World nat nat nat nat :=
    default AsyncOperation.start
      (AsyncOperation.run invoke AsyncOperation.start
         [AsyncOperation.Render (Some 1%nat) 7%nat]) in
  ∃ w', AsyncOperation.step invoke w (AsyncOperation.Render None 7%nat) = Some w'
        ∧ AsyncOperation.calls w' = AsyncOperation.calls w
        ∧ AsyncOperation.aborted w' = AsyncOperation.aborted w
        ∧ AsyncOperation.nextController w' = AsyncOperation.nextController w
        ∧ AsyncOperation.inner w' = AsyncOperation.inner w
        ∧ (AsyncOperation.controller <$> AsyncOperation.hook w') = Some 0%nat
        ∧ (AsyncOperation.promise <$> AsyncOperation.hook w') = Some (Some 10%nat).
Proof.
  intros invoke w.
  apply (useAsyncOperation_keeps_operation invoke
           [AsyncOperation.Render (Some 1%nat) 7%nat] w
           {| AsyncOperation.runner := AsyncOperation.RunOp 1%nat;
              AsyncOperation.runnerDeps := 7%nat;
              AsyncOperation.controller := 0%nat;
              AsyncOperation.controllerDeps := AsyncOperation.RunOp 1%nat;
              AsyncOperation.promise := Some 10%nat;
              AsyncOperation.promiseDeps := (AsyncOperation.RunOp 1%nat, 0%nat);
              AsyncOperation.abortDeps := (0%nat, Some 10%nat) |}
           None 7%nat).
  - reflexivity.
  - reflexivity.
  - left. reflexivity.
Defined.

Lemma useAsyncOperation_restarts_witness :
  let invoke (o c : nat) : nat := (10 * o + c)%nat in
  let w : AsyncOperation.World nat nat nat nat :=
    default AsyncOperation.start
      (AsyncOperation.run invoke AsyncOperation.start
         [AsyncOperation.Render (Some 1%nat) 7%nat;
          AsyncOperation.Settle 10%nat (Promise.Resolved (Val 5%nat));
          AsyncOperation.Flush]) in
  ∃ w', AsyncOperation.step invoke w (AsyncOperation.Render (Some 2%nat) 8%nat)
        = Some w'
        ∧ AsyncOperation.calls w' = AsyncOperation.calls w ++ [(2%nat, 1%nat)]
        ∧ 0%nat ∈ AsyncOperation.aborted w'
        ∧ (AsyncOperation.controller <$> AsyncOperation.hook w') = Some 1%nat
        ∧ (1%nat ∉ AsyncOperation.aborted w')
        ∧ Promise.watched (AsyncOperation.inner w') = Some 21%nat
        ∧ Promise.returned (Promise.render (AsyncOperation.inner w) (Some 21%nat))
          = Some (Val 5%nat)
        ∧ (Some 10%nat ≠ Some 21%nat →
           Promise.returned (AsyncOperation.inner w') = Some LOADING).
Proof.
  intros invoke w.
  destruct (useAsyncOperation_restarts invoke
              [AsyncOperation.Render (Some 1%nat) 7%nat;
               AsyncOperation.Settle 10%nat
                 (Promise.Resolved (Val 5%nat : RemoteData nat nat));
               AsyncOperation.Flush] w
              {| AsyncOperation.runner := AsyncOperation.RunOp 1%nat;
                 AsyncOperation.runnerDeps := 7%nat;
                 AsyncOperation.controller := 0%nat;
                 AsyncOperation.controllerDeps := AsyncOperation.RunOp 1%nat;
                 AsyncOperation.promise := Some 10%nat;
                 AsyncOperation.promiseDeps := (AsyncOperation.RunOp 1%nat, 0%nat);
                 AsyncOperation.abortDeps := (0%nat, Some 10%nat) |}
              (Some 2%nat) 8%nat)
    as (w' & Hstep & Hcalls & Hold & Hnew & Hlive & Hwatched & Hfirst & Hnext).
  - reflexivity.
  - reflexivity.
  - simpl. lia.
  - simpl. discriminate.
  - exists w'. split_and!;
      [exact Hstep | exact Hcalls | exact Hold | exact Hnew | exact Hlive
      | exact Hwatched | exact Hfirst | exact Hnext].
Defined.

Lemma useAsyncOperation_abort_discipline_witness :
  let invoke (o c : nat) : nat := (10 * o + c)%nat in
  let w : AsyncOperation.World nat nat nat nat :=
    default AsyncOperation.start
      (AsyncOperation.run invoke AsyncOperation.start
         [AsyncOperation.Render (Some 1%nat) 7%nat;
          AsyncOperation.Render (Some 2%nat) 8%nat]) in
  (∀ h, AsyncOperation.hook w = Some h →
        AsyncOperation.controller h ∉ AsyncOperation.aborted w)
  ∧ (∀ o c, (o, c) ∈ AsyncOperation.calls w →
            c ∈ AsyncOperation.aborted w
            ∨ ∃ h, AsyncOperation.hook w = Some h ∧ c = AsyncOperation.controller h)
  ∧ NoDup (AsyncOperation.calls w).*2.
Proof.
  intros invoke w.
  apply (useAsyncOperation_abort_discipline invoke
           [AsyncOperation.Render (Some 1%nat) 7%nat;
            AsyncOperation.Render (Some 2%nat) 8%nat] w).
  reflexivity.
Defined.

Lemma useAsyncOperation_drops_superseded_witness :
  let invoke (o c : nat) : nat := (10 * o + c)%nat in
  let w : AsyncOperation.World nat nat nat nat :=
    default AsyncOperation.start
      (AsyncOperation.run invoke AsyncOperation.start
         [AsyncOperation.Render (Some 1%nat) 7%nat;
          AsyncOperation.Render (Some 2%nat) 8%nat]) in
  ∃ w1 w2,
    AsyncOperation.run invoke w
      [AsyncOperation.Settle 10%nat (Promise.Resolved (Val 5%nat));
       AsyncOperation.Flush] = Some w1
    ∧ AsyncOperation.run invoke w [AsyncOperation.Flush] = Some w2
    ∧ Promise.returned (AsyncOperation.inner w1)
      = Promise.returned (AsyncOperation.inner w2)
    ∧ AsyncOperation.hook w1 = AsyncOperation.hook w
    ∧ AsyncOperation.aborted w1 = AsyncOperation.aborted w.
Proof.
  intros invoke w.
  apply (useAsyncOperation_drops_superseded invoke
           [AsyncOperation.Render (Some 1%nat) 7%nat;
            AsyncOperation.Render (Some 2%nat) 8%nat] w 10%nat
           (Promise.Resolved (Val 5%nat))).
  - reflexivity.
  - vm_compute. congruence.
Defined.

(** ** [usePromiseState] *)
Section PromiseStateFurther.
Import PromiseState.
Context {T E : Type} `{EqDecision T, EqDecision E, !Callable T E}.

Implicit Types (w : World T E).

(** In every world of a history, [usePromise] has had a history of its
    own and watches the promise the state holds. *)
Lemma promiseState_run (evs : list (Event T E)) :
  let w := run start evs in
  Promise.linked (inner w)
  ∧ Promise.promiseDep <$> Promise.hook (inner w) = state w.
Proof.
  induction evs as [|ev evs IH] using rev_ind.
  { split; [apply linked_start|done]. }
  unfold run in *. rewrite foldl_app. cbn [foldl].
  set (w := foldl step start evs) in *. destruct IH as [Hlinked Hstate].
  assert (∀ pev, Promise.linked (Promise.step (inner w) pev)) as Hstep.
  { intros pev. by apply linked_step. }
  pose proof (λ pev, promiseDep_step (inner w) pev Hlinked) as Hdep.
  destruct ev as [i|a|p o|]; cbn -[Promise.step].
  - split; [apply Hstep|]. by rewrite Hdep.
  - destruct (state w) as [current|] eqn:Hs; [|by rewrite Hs].
    case_bool_decide; [by rewrite Hs|]. cbn -[Promise.step].
    split; [apply Hstep|]. by rewrite Hdep.
  - split; [apply Hstep|]. by rewrite Hdep.
  - split; [apply Hstep|]. by rewrite Hdep.
Qed.

(** X16. After the first render the hook follows its setter only.  A
    render changes nothing, whatever [initialValue] it is given.  When the
    setter is given another promise than the one held, the hook holds and
    watches it; the render that the call causes still returns what the hook
    returned before, and the render after its effect returns [LOADING]
    ([NOT_ASKED] when the new state is [undefined]); and once the new
    promise has settled and the reactions have run, the hook returns what
    [setData] makes of its result with the state [LOADING]. *)
Theorem usePromiseState_follows_setter
    (evs : list (Event T E)) (current : option nat) :
  let w := run start evs in
  state w = Some current →
  (∀ initialValue, step w (Render initialValue) = w)
  ∧ (∀ a, nextState a current ≠ current →
          let next := nextState a current in
          let w' := step w (SetPromise a) in
          state w' = Some next
          ∧ Promise.watched (inner w') = next
          ∧ Promise.returned (Promise.render (inner w) next)
            = Promise.returned (inner w)
          ∧ Promise.returned (inner w')
            = Some (match next with Some _ => LOADING | None => NOT_ASKED end)
          ∧ ∀ p o, next = Some p → Promise.settled (inner w) !! p = None →
                   Promise.returned (inner (run w' [Settle p o; Flush]))
                   = Some (Promise.setData (Promise.caught o) LOADING)).
Proof.
  intros w Hs. destruct (promiseState_run evs) as [Hlinked Hdep].
  fold w in Hlinked, Hdep. rewrite Hs in Hdep.
  destruct (Promise.hook (inner w)) as [ph|] eqn:Hph; [|done].
  injection Hdep as Hdep.
  split.
  - intros i. unfold step, usePromiseState. rewrite Hs. cbn -[Promise.step].
    rewrite <- Hdep, step_render_same by done. rewrite Hdep, <- Hs. by destruct w.
  - intros a Ha next w'.
    assert (inner w' = Promise.step (inner w) (Promise.Render next)
            ∧ state w' = Some next) as [Hinner Hstate].
    { unfold w', step. rewrite Hs. by rewrite bool_decide_eq_false_2. }
    assert (Promise.linked (inner w')) as Hlinked'.
    { rewrite Hinner. by apply linked_step. }
    assert (∀ ph', Promise.hook (inner w) = Some ph' → Promise.promiseDep ph' ≠ next)
      as Hne.
    { intros ph'. rewrite Hph. intros [= <-]. unfold next. congruence. }
    rewrite Hinner in Hlinked' |- *.
    rewrite step_render_changed in Hlinked' |- * by done.
    split_and!; [done|done| |done|].
    + rewrite render_returned_state by done.
      by destruct (Promise.linked_promise _ Hlinked ph Hph) as [_ ->].
    + intros p o Hnext Hunsettled.
      change (inner (run w' [Settle p o; Flush]))
        with (Promise.run (inner w') [Promise.Settle p o; Promise.Flush]).
      rewrite Hinner, step_render_changed by done.
      apply step_flush_settled; [done| |done|by rewrite Hnext].
      unfold Promise.watched. simpl. done.
Qed.
End PromiseStateFurther.

Lemma usePromiseState_follows_setter_witness :
  let w : PromiseState.World nat nat :=
    PromiseState.run PromiseState.start
      [PromiseState.Render (PromiseState.InitialFunction (λ _, Some 1%nat));
       PromiseState.Settle 1%nat (Promise.Resolved (Val 5%nat));
       PromiseState.Flush] in
  let w' := PromiseState.step w (PromiseState.SetPromise (PromiseState.SetValue (Some 2%nat))) in
  PromiseState.step w (PromiseState.Render (PromiseState.InitialValue (Some 2%nat))) = w
  ∧ Promise.returned (Promise.render (PromiseState.inner w) (Some 2%nat))
    = Some (Val 5%nat)
  ∧ Promise.returned (PromiseState.inner w') = Some LOADING
  ∧ Promise.returned
      (PromiseState.inner
         (PromiseState.run w'
            [PromiseState.Settle 2%nat (Promise.Resolved (Val 6%nat));
             PromiseState.Flush]))
    = Some (Val 6%nat).
Proof.
  intros w w'.
  destruct (usePromiseState_follows_setter
              [PromiseState.Render (PromiseState.InitialFunction (λ _, Some 1%nat));
               PromiseState.Settle 1%nat (Promise.Resolved (Val 5%nat : RemoteData nat nat));
               PromiseState.Flush] (Some 1%nat) eq_refl)
    as (Hrender & Hset).
  destruct (Hset (PromiseState.SetValue (Some 2%nat)))
    as (_ & _ & Hfirst & Hnext & Hsettled); [discriminate|].
  split_and!; [apply Hrender | exact Hfirst | exact Hnext |].
  apply (Hsettled 2%nat (Promise.Resolved (Val 6%nat))); reflexivity.
Defined.
